(** * Mobile navigation menu: the click wiring of [script.js]

    The script runs one callback when the document is parsed.  The callback
    looks up the hamburger icon, the navigation menu and the navigation
    links, registers one click listener on the hamburger (toggle the
    [active] class on icon and menu) and one on every link (remove the
    [active] class from icon and menu).

    The development embeds the script over a small model of the host
    document: elements in document order, each with a class token list;
    a listener table; the cancel flag of the event being dispatched.
    JavaScript exceptions are completions of a state-and-error monad. *)

From Stdlib Require Import Strings.Ascii Strings.String.
From stdpp Require Import base list strings.

Local Open Scope string_scope.
Local Open Scope list_scope.
Local Open Scope nat_scope.

(** ** Elements, references and closures *)

(** A node is the position of an element in document order. *)
Abbreviation Node := nat (only parsing).

(** What a [const] of the script holds after a lookup: an element or [null]. *)
Abbreviation Ref := (option nat) (only parsing).

Record Element := mkElement {
  attributes : list (string * string);  (* every attribute except [class] *)
  classList : list string               (* the tokens of the [class] attribute *)
}.

(** The two arrow functions registered as click listeners, each with the
    bindings [hamburger] and [navMenu] it captures. *)
Inductive Closure :=
| hamburger_click (hamburger navMenu : Ref)
| nav_link_click (hamburger navMenu : Ref).

Record World := mkWorld {
  dom : list Element;
  listeners : list (Node * string * Closure);  (* in registration order *)
  defaultPrevented : bool                      (* cancel flag of the current event *)
}.

Definition set_dom (d : list Element) (w : World) : World :=
  {| dom := d; listeners := listeners w; defaultPrevented := defaultPrevented w |}.

Definition set_listeners (ls : list (Node * string * Closure)) (w : World) : World :=
  {| dom := dom w; listeners := ls; defaultPrevented := defaultPrevented w |}.

Definition set_defaultPrevented (b : bool) (w : World) : World :=
  {| dom := dom w; listeners := listeners w; defaultPrevented := b |}.

(** ** Completions and the script monad *)

Inductive Error := TypeError.

Inductive Completion (A : Type) :=
| Normal (a : A)
| Throw (e : Error).
Arguments Normal {A} a.
Arguments Throw {A} e.

Definition M (A : Type) : Type := World -> World * Completion A.

Definition ret {A} (a : A) : M A := fun w => (w, Normal a).

Definition bind {A B} (m : M A) (k : A -> M B) : M B := fun w =>
  match m w with
  | (w1, Normal a) => k a w1
  | (w1, Throw e) => (w1, Throw e)
  end.

#[global] Instance M_ret : MRet M := @ret.
#[global] Instance M_bind : MBind M := fun A B k m => bind m k.

(** ** Class token lists *)

Module DOMTokenList.

Definition contains (tok : string) (cl : list string) : bool :=
  bool_decide (tok ∈ cl).

Definition remove (tok : string) (cl : list string) : list string :=
  filter (fun c => c ≠ tok) cl.

(** [toggle] removes a token that is there and appends one that is not;
    its result tells whether the token is there afterwards. *)
Definition toggle (tok : string) (cl : list string) : list string * bool :=
  if contains tok cl then (remove tok cl, false) else (cl ++ [tok], true).

End DOMTokenList.

Definition set_classList (cl : list string) (e : Element) : Element :=
  {| attributes := attributes e; classList := cl |}.

(** ** Selectors *)

(** The script only uses class selectors, [.name]. *)
Definition matches (sel : string) (e : Element) : bool :=
  match sel with
  | String "."%char c => DOMTokenList.contains c (classList e)
  | _ => false
  end.

Fixpoint select_from (sel : string) (i : Node) (d : list Element) : list Node :=
  match d with
  | [] => []
  | e :: d' =>
      if matches sel e then i :: select_from sel (S i) d'
      else select_from sel (S i) d'
  end.

Definition select_all (sel : string) (d : list Element) : list Node :=
  select_from sel 0 d.

Definition select_first (sel : string) (d : list Element) : Ref :=
  head (select_all sel d).

(** ** Host operations the script calls *)

Definition querySelector (sel : string) : M Ref :=
  fun w => (w, Normal (select_first sel (dom w))).

Definition querySelectorAll (sel : string) : M (list Node) :=
  fun w => (w, Normal (select_all sel (dom w))).

(** Reading a property of [null] throws.  A reference the script holds always
    denotes an element of the document; on a position outside the document
    the update changes nothing. *)
Definition classList_toggle (r : Ref) (tok : string) : M bool := fun w =>
  match r with
  | None => (w, Throw TypeError)
  | Some n =>
      (set_dom (alter (fun e => set_classList (DOMTokenList.toggle tok (classList e)).1 e)
                      n (dom w)) w,
       Normal (from_option (fun e => (DOMTokenList.toggle tok (classList e)).2)
                           false (dom w !! n)))
  end.

Definition classList_remove (r : Ref) (tok : string) : M unit := fun w =>
  match r with
  | None => (w, Throw TypeError)
  | Some n =>
      (set_dom (alter (fun e => set_classList (DOMTokenList.remove tok (classList e)) e)
                      n (dom w)) w,
       Normal tt)
  end.

(** Every evaluation of an arrow function yields a new function object, so
    a registration is never a duplicate of an earlier one. *)
Definition addEventListener (r : Ref) (type : string) (cb : Closure) : M unit := fun w =>
  match r with
  | None => (w, Throw TypeError)
  | Some n => (set_listeners (listeners w ++ [(n, type, cb)]) w, Normal tt)
  end.

Fixpoint forEach (l : list Node) (f : Node -> M unit) : M unit :=
  match l with
  | [] => ret tt
  | item :: l' => f item ;; forEach l' f
  end.

(** ** The script *)

(** The body of a click listener. *)
Definition call (cb : Closure) : M unit :=
  match cb with
  | hamburger_click hamburger navMenu =>
      classList_toggle hamburger "active" ;;
      classList_toggle navMenu "active" ;;
      mret tt
  | nav_link_click hamburger navMenu =>
      classList_remove hamburger "active" ;;
      classList_remove navMenu "active"
  end.

(** The callback of [DOMContentLoaded]. *)
Definition on_DOMContentLoaded : M unit :=
  hamburger ← querySelector ".hamburger" ;
  navMenu ← querySelector ".nav-menu" ;
  navLinks ← querySelectorAll ".nav-link" ;
  addEventListener hamburger "click" (hamburger_click hamburger navMenu) ;;
  forEach navLinks (fun item =>
    addEventListener (Some item) "click" (nav_link_click hamburger navMenu)).

(** ** Event dispatch *)

Definition listeners_on (n : Node) (type : string) (w : World) : list Closure :=
  omap (fun l : Node * string * Closure =>
          if bool_decide (l.1.1 = n ∧ l.1.2 = type) then Some l.2 else None)
       (listeners w).

(** An exception thrown by a listener is reported; the remaining listeners
    still run. *)
Fixpoint invoke (cbs : list Closure) (w : World) : World * list Error :=
  match cbs with
  | [] => (w, [])
  | cb :: cbs' =>
      let (w1, r) := call cb w in
      let (w2, errs) := invoke cbs' w1 in
      (w2, match r with Throw e => e :: errs | Normal _ => errs end)
  end.

Fixpoint propagate (path : list Node) (w : World) : World * list Error :=
  match path with
  | [] => (w, [])
  | n :: path' =>
      let (w1, errs1) := invoke (listeners_on n "click" w) w in
      let (w2, errs2) := propagate path' w1 in
      (w2, errs1 ++ errs2)
  end.

(** A click: its target and the ancestors the event bubbles through. *)
Inductive Event := Click (target : Node) (ancestors : list Node).

Definition dispatchEvent (ev : Event) (w : World) : World * list Error :=
  match ev with
  | Click target ancestors =>
      propagate (target :: ancestors) (set_defaultPrevented false w)
  end.

Definition step (ev : Event) (w : World) : World := (dispatchEvent ev w).1.

Inductive reachable (w0 : World) : World -> Prop :=
| reachable_refl : reachable w0 w0
| reachable_step w ev : reachable w0 w -> reachable w0 (step ev w).

(** The world once the document is parsed and the script has run. *)
Definition loaded (w : World) : World := (on_DOMContentLoaded w).1.

(** ** Observations *)

Definition has_class (tok : string) (n : Node) (w : World) : bool :=
  from_option (fun e => DOMTokenList.contains tok (classList e)) false (dom w !! n).

Definition active (n : Node) (w : World) : bool := has_class "active" n w.

(** One run of a listener, as a function on worlds. *)
Definition after (cb : Closure) (w : World) : World := (call cb w).1.

(** The two states of the menu, read off the two markers. *)
Definition is_open (h m : Node) (w : World) : Prop :=
  active h w = true ∧ active m w = true.

Definition is_closed (h m : Node) (w : World) : Prop :=
  active h w = false ∧ active m w = false.

(** [N] clicks on the hamburger, one after the other. *)
Definition toggle_clicks (N : nat) (h m : Node) (w : World) : World :=
  Nat.iter N (after (hamburger_click (Some h) (Some m))) w.

(** What is left of an element when its [active] token is set aside. *)
Definition rest_of (e : Element) : Element :=
  set_classList (DOMTokenList.remove "active" (classList e)) e.

(** The bindings a closure captures. *)
Definition hamburger_of (cb : Closure) : Ref :=
  match cb with hamburger_click h _ | nav_link_click h _ => h end.

Definition navMenu_of (cb : Closure) : Ref :=
  match cb with hamburger_click _ m | nav_link_click _ m => m end.

(** [w'] differs from [w] at most in the [active] tokens of its elements. *)
Definition same_but_active (w w' : World) : Prop :=
  listeners w' = listeners w ∧
  defaultPrevented w' = defaultPrevented w ∧
  length (dom w') = length (dom w) ∧
  ∀ k : Node, rest_of <$> dom w' !! k = rest_of <$> dom w !! k.

(** A closure of the script whose bindings are the elements [h] and [m]. *)
Definition bound_to (h m : Node) (cb : Closure) : Prop :=
  cb = hamburger_click (Some h) (Some m) ∨ cb = nav_link_click (Some h) (Some m).

(** The state the equality invariant is about: both elements are in the
    document, every listener is one of the script's, and the markers agree. *)
Definition in_step (h m : Node) (w : World) : Prop :=
  is_Some (dom w !! h) ∧ is_Some (dom w !! m) ∧
  (∀ l, l ∈ listeners w → bound_to h m l.2) ∧
  active h w = active m w.

(** ** Example documents *)

Definition el (cl : list string) : Element := {| attributes := []; classList := cl |}.

Definition fresh (d : list Element) : World :=
  {| dom := d; listeners := []; defaultPrevented := false |}.

Definition page : list Element :=
  [ el ["navbar"]; el ["nav-menu"]; el ["nav-link"]; el ["nav-link"]; el ["hamburger"] ].

Definition page_no_links : list Element :=
  [ el ["navbar"]; el ["nav-menu"]; el ["hamburger"] ].

Definition page_no_menu : list Element :=
  [ el ["navbar"]; el ["nav-link"]; el ["hamburger"] ].

Definition page_no_hamburger : list Element :=
  [ el ["navbar"]; el ["nav-menu"]; el ["nav-link"] ].

Definition page_icon_open : list Element :=
  [ el ["nav-menu"]; el ["nav-link"]; el ["hamburger"; "active"] ].

(** A page whose hamburger is itself marked up as a link. *)
Definition page_icon_link : list Element :=
  [ el ["nav-menu"]; el ["nav-link"]; el ["hamburger"; "nav-link"] ].

(** A page whose hamburger holds an icon and, oddly, a link. *)
Definition page_nested : list Element :=
  [ el ["navbar"]; el ["nav-menu"]; el ["nav-link"]; el ["hamburger"]; el ["bar"];
    el ["nav-link"] ].

Example loaded_page :
  listeners (loaded (fresh page)) =
    [ (4, "click", hamburger_click (Some 4) (Some 1));
      (2, "click", nav_link_click (Some 4) (Some 1));
      (3, "click", nav_link_click (Some 4) (Some 1)) ].
Proof. reflexivity. Qed.

Example click_page :
  dom (step (Click 4 [0]) (loaded (fresh page))) =
    [ el ["navbar"]; el ["nav-menu"; "active"]; el ["nav-link"]; el ["nav-link"];
      el ["hamburger"; "active"] ].
Proof. reflexivity. Qed.

(** A click on a link bubbles through the menu and closes it. *)
Example click_link_page :
  dom (step (Click 2 [1; 0]) (step (Click 4 [0]) (loaded (fresh page)))) = page.
Proof. reflexivity. Qed.

(** Without a hamburger the script throws before it registers anything. *)
Example loaded_page_no_hamburger :
  on_DOMContentLoaded (fresh page_no_hamburger) = (fresh page_no_hamburger, Throw TypeError).
Proof. reflexivity. Qed.

(** The marker comes back after two clicks, at the end of the token list. *)
Example two_clicks_token_order :
  dom (toggle_clicks 2 0 1 (fresh [el ["active"; "hamburger"]; el ["nav-menu"; "active"]])) =
    [el ["hamburger"; "active"]; el ["nav-menu"; "active"]].
Proof. reflexivity. Qed.

(** ** Token lists *)

Section TokenLists.
Import DOMTokenList.
Implicit Types (tok c : string) (cl : list string).

Lemma contains_true tok cl : contains tok cl = true ↔ tok ∈ cl.
Proof. unfold contains. apply bool_decide_eq_true. Qed.

Lemma contains_false tok cl : contains tok cl = false ↔ tok ∉ cl.
Proof. unfold contains. apply bool_decide_eq_false. Qed.

Lemma contains_remove tok c cl :
  contains c (remove tok cl) = if decide (c = tok) then false else contains c cl.
Proof.
  unfold contains, remove. case_decide as Hc.
  - apply bool_decide_eq_false. rewrite list_elem_of_filter. tauto.
  - apply bool_decide_ext. rewrite list_elem_of_filter. tauto.
Qed.

Lemma remove_absent tok cl : contains tok cl = false → remove tok cl = cl.
Proof.
  rewrite contains_false. unfold remove. induction cl as [|c cl IH]; intros Hnot.
  - reflexivity.
  - rewrite not_elem_of_cons in Hnot. destruct Hnot as [Hne Hcl].
    rewrite filter_cons_True by congruence. f_equal. auto.
Qed.

Lemma remove_remove tok cl : remove tok (remove tok cl) = remove tok cl.
Proof. apply remove_absent. rewrite contains_remove. by rewrite decide_True. Qed.

Lemma contains_toggle tok c cl :
  contains c (toggle tok cl).1 =
    if decide (c = tok) then negb (contains c cl) else contains c cl.
Proof.
  unfold toggle. destruct (contains tok cl) eqn:Htok; simpl.
  - rewrite contains_remove. case_decide; subst; by rewrite ?Htok.
  - case_decide as Hc.
    + subst. rewrite Htok. simpl. apply contains_true, elem_of_app.
      right. by apply list_elem_of_singleton.
    + unfold contains. apply bool_decide_ext.
      rewrite elem_of_app, list_elem_of_singleton. tauto.
Qed.

Lemma toggle_result tok cl : (toggle tok cl).2 = contains tok (toggle tok cl).1.
Proof.
  rewrite contains_toggle, decide_True by done.
  unfold toggle. by destruct (contains tok cl).
Qed.

(** Toggling never disturbs the other tokens or their order. *)
Lemma remove_toggle tok cl : remove tok (toggle tok cl).1 = remove tok cl.
Proof.
  unfold toggle. destruct (contains tok cl) eqn:Htok; simpl.
  - apply remove_remove.
  - unfold remove. rewrite filter_app, filter_cons_False, filter_nil by tauto.
    apply app_nil_r.
Qed.

End TokenLists.

(** ** Class updates on the document *)

Section ClassUpdates.
Implicit Types (w : World) (n k h m : Node) (tok c : string).

Lemma has_class_alter (f : list string → list string) c k n w :
  has_class c n (set_dom (alter (fun e => set_classList (f (classList e)) e) k (dom w)) w) =
    if decide (k = n)
    then from_option (fun e => DOMTokenList.contains c (f (classList e))) false (dom w !! n)
    else has_class c n w.
Proof.
  unfold has_class, set_dom; simpl. case_decide as Hk.
  - subst. rewrite list_lookup_alter_eq. by destruct (dom w !! n).
  - by rewrite list_lookup_alter_ne.
Qed.

Lemma has_class_toggle tok c n k w :
  has_class c k (classList_toggle (Some n) tok w).1 =
    if decide (n = k ∧ c = tok) then negb (has_class c k w) && bool_decide (is_Some (dom w !! k))
    else has_class c k w.
Proof.
  unfold classList_toggle; simpl.
  rewrite (has_class_alter (fun cl => (DOMTokenList.toggle tok cl).1)).
  unfold has_class. destruct (decide (n = k)) as [->|Hn].
  - destruct (dom w !! k) as [e|]; simpl.
    + rewrite contains_toggle. destruct (decide (c = tok)) as [->|Hc].
      * rewrite decide_True by done. by rewrite andb_true_r.
      * rewrite decide_False by tauto. done.
    + by case_decide.
  - rewrite decide_False by tauto. done.
Qed.

Lemma has_class_remove tok c n k w :
  has_class c k (classList_remove (Some n) tok w).1 =
    if decide (n = k ∧ c = tok) then false else has_class c k w.
Proof.
  unfold classList_remove; simpl.
  rewrite (has_class_alter (DOMTokenList.remove tok)).
  unfold has_class. destruct (decide (n = k)) as [->|Hn].
  - destruct (dom w !! k) as [e|]; simpl.
    + rewrite contains_remove. destruct (decide (c = tok)) as [->|Hc].
      * by rewrite decide_True.
      * by rewrite decide_False by tauto.
    + by case_decide.
  - rewrite decide_False by tauto. done.
Qed.

Lemma active_toggle_same n w :
  is_Some (dom w !! n) →
  active n (classList_toggle (Some n) "active" w).1 = negb (active n w).
Proof.
  intros Hn. unfold active. rewrite has_class_toggle, decide_True by done.
  rewrite bool_decide_eq_true_2 by done. apply andb_true_r.
Qed.

Lemma active_toggle_other n k w :
  n ≠ k → active k (classList_toggle (Some n) "active" w).1 = active k w.
Proof.
  intros Hn. unfold active. rewrite has_class_toggle, decide_False; tauto.
Qed.

Lemma lookup_toggle_is_Some tok n k w :
  is_Some (dom (classList_toggle (Some n) tok w).1 !! k) ↔ is_Some (dom w !! k).
Proof.
  unfold classList_toggle; simpl. rewrite !lookup_lt_is_Some, length_alter. done.
Qed.

Lemma lookup_remove_is_Some tok n k w :
  is_Some (dom (classList_remove (Some n) tok w).1 !! k) ↔ is_Some (dom w !! k).
Proof.
  unfold classList_remove; simpl. rewrite !lookup_lt_is_Some, length_alter. done.
Qed.

End ClassUpdates.

(** ** The listeners as functions on worlds *)

Section Listeners.
Implicit Types (w : World) (n k h m : Node).

Lemma call_hamburger_click h m w :
  call (hamburger_click (Some h) (Some m)) w =
    ((classList_toggle (Some m) "active" (classList_toggle (Some h) "active" w).1).1,
     Normal tt).
Proof. reflexivity. Qed.

Lemma call_nav_link_click h m w :
  call (nav_link_click (Some h) (Some m)) w =
    ((classList_remove (Some m) "active" (classList_remove (Some h) "active" w).1).1,
     Normal tt).
Proof. reflexivity. Qed.

End Listeners.

(** ** Lookups *)

Section Lookups.
Implicit Types (d : list Element) (n i : Node) (sel : string).

Lemma select_from_spec sel d : ∀ i n,
  n ∈ select_from sel i d ↔
  ∃ e, i ≤ n ∧ d !! (n - i) = Some e ∧ matches sel e = true.
Proof.
  induction d as [|e d IH]; intros i n; simpl.
  - split; [by intros ?%elem_of_nil | by intros (? & _ & ? & _)].
  - assert (Htail : n ∈ select_from sel (S i) d ↔
                    ∃ e', i < n ∧ d !! (n - S i) = Some e' ∧ matches sel e' = true).
    { rewrite IH. done. }
    destruct (matches sel e) eqn:He; rewrite ?elem_of_cons, Htail; split.
    + intros [->|(e' & Hlt & Hl & Hm)].
      * exists e. by rewrite Nat.sub_diag.
      * exists e'. split; [lia|]. split; [|done].
        by replace (n - i) with (S (n - S i)) by lia.
    + intros (e' & Hle & Hl & Hm). destruct (decide (n = i)) as [->|Hne]; [by left|].
      right. exists e'. split; [lia|]. split; [|done].
      by replace (n - i) with (S (n - S i)) in Hl by lia.
    + intros (e' & Hlt & Hl & Hm). exists e'. split; [lia|]. split; [|done].
      by replace (n - i) with (S (n - S i)) by lia.
    + intros (e' & Hle & Hl & Hm). destruct (decide (n = i)) as [->|Hne].
      * rewrite Nat.sub_diag in Hl. simpl in Hl. congruence.
      * exists e'. split; [lia|]. split; [|done].
        by replace (n - i) with (S (n - S i)) in Hl by lia.
Qed.

Lemma select_all_spec sel d n :
  n ∈ select_all sel d ↔ ∃ e, d !! n = Some e ∧ matches sel e = true.
Proof.
  unfold select_all. rewrite select_from_spec, Nat.sub_0_r.
  split; intros (e & H); exists e; intuition lia.
Qed.

Lemma select_first_matches sel d n :
  select_first sel d = Some n → ∃ e, d !! n = Some e ∧ matches sel e = true.
Proof.
  unfold select_first. intros Hhd. apply select_all_spec.
  destruct (select_all sel d) as [|n' l]; simplify_eq/=. apply elem_of_cons. by left.
Qed.

Lemma select_first_is_Some sel d n : select_first sel d = Some n → is_Some (d !! n).
Proof. intros (e & He & _)%select_first_matches. by exists e. Qed.

Lemma select_first_None sel d :
  select_first sel d = None ↔ ∀ n e, d !! n = Some e → matches sel e = false.
Proof.
  unfold select_first. split.
  - intros Hhd n e He. destruct (matches sel e) eqn:Hm; [|done].
    assert (Hin : n ∈ select_all sel d) by (apply select_all_spec; eauto).
    destruct (select_all sel d); [by apply elem_of_nil in Hin | done].
  - intros Hno. destruct (select_all sel d) as [|n l] eqn:Hall; [done|].
    assert (Hin : n ∈ select_all sel d) by (rewrite Hall; apply elem_of_cons; by left).
    apply select_all_spec in Hin as (e & He & Hm). rewrite (Hno n e He) in Hm. done.
Qed.

End Lookups.

(** ** Running the script *)

Section Initialization.
Implicit Types (w : World) (h m : Node).

Lemma forEach_addEventListener (l : list Node) (type : string) (cb : Closure) w :
  forEach l (fun item => addEventListener (Some item) type cb) w =
    (set_listeners (listeners w ++ map (fun item => (item, type, cb)) l) w, Normal tt).
Proof.
  revert w. induction l as [|item l IH]; intros w.
  - simpl. unfold ret. rewrite app_nil_r. by destruct w.
  - change (forEach (item :: l) ?f w) with
      (bind (f item) (fun _ => forEach l f) w).
    unfold bind, addEventListener. rewrite IH. simpl.
    unfold set_listeners; simpl. by rewrite <- app_assoc.
Qed.

(** The listeners the script registers on a document. *)
Lemma on_DOMContentLoaded_found w h :
  select_first ".hamburger" (dom w) = Some h →
  on_DOMContentLoaded w =
    (set_listeners
       (listeners w ++
        (h, "click", hamburger_click (Some h) (select_first ".nav-menu" (dom w))) ::
        map (fun item => (item, "click",
                          nav_link_click (Some h) (select_first ".nav-menu" (dom w))))
            (select_all ".nav-link" (dom w))) w,
     Normal tt).
Proof.
  intros Hh. unfold on_DOMContentLoaded.
  unfold mbind, M_bind, bind, querySelector, querySelectorAll. rewrite Hh.
  unfold addEventListener at 1. rewrite forEach_addEventListener.
  unfold set_listeners; simpl. by rewrite <- app_assoc.
Qed.

Lemma on_DOMContentLoaded_null w :
  select_first ".hamburger" (dom w) = None →
  on_DOMContentLoaded w = (w, Throw TypeError).
Proof.
  intros Hh. unfold on_DOMContentLoaded.
  unfold mbind, M_bind, bind, querySelector, querySelectorAll. by rewrite Hh.
Qed.

Lemma dom_loaded w : dom (loaded w) = dom w.
Proof.
  unfold loaded. destruct (select_first ".hamburger" (dom w)) as [h|] eqn:Hh.
  - by rewrite (on_DOMContentLoaded_found w h).
  - by rewrite on_DOMContentLoaded_null.
Qed.

End Initialization.

(** ** What a listener leaves alone *)

Section Frame.
Implicit Types (w : World) (n k : Node) (r : Ref) (cb : Closure).

Lemma same_but_active_refl w : same_but_active w w.
Proof. by repeat split. Qed.

Lemma same_but_active_trans w1 w2 w3 :
  same_but_active w1 w2 → same_but_active w2 w3 → same_but_active w1 w3.
Proof.
  intros (Hl1 & Hp1 & Hn1 & Hr1) (Hl2 & Hp2 & Hn2 & Hr2).
  repeat split; [congruence..|]. intros k. by rewrite Hr2.
Qed.

Lemma rest_of_toggle (e : Element) :
  rest_of (set_classList (DOMTokenList.toggle "active" (classList e)).1 e) = rest_of e.
Proof. unfold rest_of, set_classList; simpl. by rewrite remove_toggle. Qed.

Lemma rest_of_remove (e : Element) :
  rest_of (set_classList (DOMTokenList.remove "active" (classList e)) e) = rest_of e.
Proof. unfold rest_of, set_classList; simpl. by rewrite remove_remove. Qed.

Lemma same_but_active_alter (f : Element → Element) n w :
  (∀ e, rest_of (f e) = rest_of e) →
  same_but_active w (set_dom (alter f n (dom w)) w).
Proof.
  intros Hf. unfold same_but_active, set_dom; simpl.
  repeat split; [apply length_alter|]. intros k.
  rewrite list_lookup_alter. case_decide; [subst n|done].
  destruct (dom w !! k) as [e|]; simpl; [|done]. by rewrite Hf.
Qed.

Lemma same_but_active_toggle r w :
  same_but_active w (classList_toggle r "active" w).1.
Proof.
  destruct r as [n|]; simpl; [|apply same_but_active_refl].
  apply same_but_active_alter, rest_of_toggle.
Qed.

Lemma same_but_active_remove r w :
  same_but_active w (classList_remove r "active" w).1.
Proof.
  destruct r as [n|]; simpl; [|apply same_but_active_refl].
  apply same_but_active_alter, rest_of_remove.
Qed.

Lemma same_but_active_after cb w : same_but_active w (after cb w).
Proof.
  unfold after. destruct cb as [h m|h m]; simpl; unfold mbind, M_bind, bind.
  - pose proof (same_but_active_toggle h w) as H1.
    destruct (classList_toggle h "active" w) as [w1 [b1|e1]]; simpl in *; [|done].
    pose proof (same_but_active_toggle m w1) as H2.
    destruct (classList_toggle m "active" w1) as [w2 [b2|e2]]; simpl in *;
      by eapply same_but_active_trans.
  - pose proof (same_but_active_remove h w) as H1.
    destruct (classList_remove h "active" w) as [w1 [b1|e1]]; simpl in *; [|done].
    pose proof (same_but_active_remove m w1) as H2.
    by eapply same_but_active_trans.
Qed.

Lemma lookup_toggle_other r tok k w :
  r ≠ Some k → dom (classList_toggle r tok w).1 !! k = dom w !! k.
Proof.
  intros Hr. destruct r as [n|]; simpl; [|done].
  apply list_lookup_alter_ne. congruence.
Qed.

Lemma lookup_remove_other r tok k w :
  r ≠ Some k → dom (classList_remove r tok w).1 !! k = dom w !! k.
Proof.
  intros Hr. destruct r as [n|]; simpl; [|done].
  apply list_lookup_alter_ne. congruence.
Qed.

Lemma lookup_after_other cb k w :
  hamburger_of cb ≠ Some k → navMenu_of cb ≠ Some k →
  dom (after cb w) !! k = dom w !! k.
Proof.
  unfold after. destruct cb as [h m|h m]; simpl; unfold mbind, M_bind, bind;
    intros Hh Hm.
  - pose proof (lookup_toggle_other h "active" k w Hh) as H1.
    destruct (classList_toggle h "active" w) as [w1 [b1|e1]]; simpl in *; [|done].
    pose proof (lookup_toggle_other m "active" k w1 Hm) as H2.
    destruct (classList_toggle m "active" w1) as [w2 [b2|e2]]; simpl in *; congruence.
  - pose proof (lookup_remove_other h "active" k w Hh) as H1.
    destruct (classList_remove h "active" w) as [w1 [b1|e1]]; simpl in *; [|done].
    rewrite <- H1. by apply lookup_remove_other.
Qed.

Lemma same_but_active_invoke (cbs : list Closure) w :
  same_but_active w (invoke cbs w).1.
Proof.
  revert w. induction cbs as [|cb cbs IH]; intros w; simpl.
  - apply same_but_active_refl.
  - pose proof (same_but_active_after cb w) as H1. unfold after in H1.
    destruct (call cb w) as [w1 r]. specialize (IH w1).
    destruct (invoke cbs w1) as [w2 errs]. simpl in *.
    by eapply same_but_active_trans.
Qed.

Lemma same_but_active_propagate (path : list Node) w :
  same_but_active w (propagate path w).1.
Proof.
  revert w. induction path as [|n path IH]; intros w; simpl.
  - apply same_but_active_refl.
  - pose proof (same_but_active_invoke (listeners_on n "click" w) w) as H1.
    destruct (invoke (listeners_on n "click" w) w) as [w1 errs1]. specialize (IH w1).
    destruct (propagate path w1) as [w2 errs2]. simpl in *.
    by eapply same_but_active_trans.
Qed.

Lemma listeners_step ev w : listeners (step ev w) = listeners w.
Proof.
  destruct ev as [target ancestors]. unfold step, dispatchEvent.
  by destruct (same_but_active_propagate (target :: ancestors)
                 (set_defaultPrevented false w)) as (-> & _).
Qed.

Lemma length_dom_step ev w : length (dom (step ev w)) = length (dom w).
Proof.
  destruct ev as [target ancestors]. unfold step, dispatchEvent.
  by destruct (same_but_active_propagate (target :: ancestors)
                 (set_defaultPrevented false w)) as (_ & _ & -> & _).
Qed.

End Frame.

(** ** The markers after one listener *)

Section Markers.
Implicit Types (w : World) (h m k : Node) (c : string).

Lemma active_after_hamburger_click_h h m w :
  h ≠ m → is_Some (dom w !! h) →
  active h (after (hamburger_click (Some h) (Some m)) w) = negb (active h w).
Proof.
  intros Hne Hh. unfold after. rewrite call_hamburger_click. cbn [fst].
  rewrite active_toggle_other by done. by apply active_toggle_same.
Qed.

Lemma active_after_hamburger_click_m h m w :
  h ≠ m → is_Some (dom w !! m) →
  active m (after (hamburger_click (Some h) (Some m)) w) = negb (active m w).
Proof.
  intros Hne Hm. unfold after. rewrite call_hamburger_click. cbn [fst].
  rewrite active_toggle_same by by apply lookup_toggle_is_Some.
  by rewrite active_toggle_other.
Qed.

Lemma active_after_nav_link_click_h h m w :
  active h (after (nav_link_click (Some h) (Some m)) w) = false.
Proof.
  unfold after. rewrite call_nav_link_click. cbn [fst]. unfold active.
  rewrite !has_class_remove. case_decide; [done|]. by rewrite decide_True.
Qed.

Lemma active_after_nav_link_click_m h m w :
  active m (after (nav_link_click (Some h) (Some m)) w) = false.
Proof.
  unfold after. rewrite call_nav_link_click. cbn [fst]. unfold active.
  rewrite has_class_remove. by rewrite decide_True.
Qed.

(** Two clicks on the hamburger put every token of every element back. *)
Lemma has_class_after_two_clicks h m c k w :
  has_class c k (after (hamburger_click (Some h) (Some m))
                   (after (hamburger_click (Some h) (Some m)) w)) = has_class c k w.
Proof.
  unfold after. rewrite !call_hamburger_click. cbn [fst].
  rewrite !has_class_toggle.
  assert (Hsome : ∀ w' n, is_Some (dom (classList_toggle (Some n) "active" w').1 !! k) ↔
                          is_Some (dom w' !! k)) by (intros; apply lookup_toggle_is_Some).
  rewrite !(bool_decide_ext _ _ (Hsome _ _)).
  assert (Hout : bool_decide (is_Some (dom w !! k)) = false → has_class c k w = false).
  { intros Hk%bool_decide_eq_false. unfold has_class.
    destruct (dom w !! k); [by destruct Hk | done]. }
  destruct (bool_decide (is_Some (dom w !! k))), (has_class c k w);
    try (specialize (Hout eq_refl); discriminate);
    repeat case_decide; done.
Qed.

(** When one element carries both class names the two lookups meet in it,
    and one click toggles its marker twice. *)
Lemma has_class_after_click_same_element h c k w :
  has_class c k (after (hamburger_click (Some h) (Some h)) w) = has_class c k w.
Proof.
  unfold after. rewrite call_hamburger_click. cbn [fst].
  rewrite !has_class_toggle.
  rewrite (bool_decide_ext _ _ (lookup_toggle_is_Some "active" h k w)).
  assert (Hout : bool_decide (is_Some (dom w !! k)) = false → has_class c k w = false).
  { intros Hk%bool_decide_eq_false. unfold has_class.
    destruct (dom w !! k); [by destruct Hk | done]. }
  destruct (bool_decide (is_Some (dom w !! k))), (has_class c k w);
    try (specialize (Hout eq_refl); discriminate);
    repeat case_decide; done.
Qed.

Lemma is_Some_after cb k w : is_Some (dom (after cb w) !! k) ↔ is_Some (dom w !! k).
Proof.
  destruct (same_but_active_after cb w) as (_ & _ & Hlen & _).
  by rewrite !lookup_lt_is_Some, Hlen.
Qed.

Lemma markers_equal_after cb h m w :
  bound_to h m cb → is_Some (dom w !! h) → is_Some (dom w !! m) →
  active h w = active m w →
  active h (after cb w) = active m (after cb w).
Proof.
  intros [->| ->] Hh Hm Heq.
  - destruct (decide (h = m)) as [->|Hne]; [done|].
    rewrite active_after_hamburger_click_h, active_after_hamburger_click_m by done.
    by rewrite Heq.
  - by rewrite active_after_nav_link_click_h, active_after_nav_link_click_m.
Qed.

End Markers.

(** ** Dispatch *)

Section Dispatch.
Implicit Types (w : World) (h m n k : Node) (cb : Closure).

Lemma elem_of_listeners_on cb n (type : string) w :
  cb ∈ listeners_on n type w → ∃ l, l ∈ listeners w ∧ l.2 = cb.
Proof.
  unfold listeners_on. rewrite list_elem_of_omap. intros (l & Hl & Hsome).
  exists l. split; [done|]. case_bool_decide; by simplify_eq.
Qed.

Lemma listeners_on_single h cb n w :
  listeners w = [(h, "click", cb)] →
  listeners_on n "click" w = if decide (h = n) then [cb] else [].
Proof.
  intros Hl. unfold listeners_on. rewrite Hl. simpl.
  case_decide.
  - by rewrite bool_decide_eq_true_2.
  - rewrite bool_decide_eq_false_2; [done|]. simpl. tauto.
Qed.

Lemma listeners_on_links (links : list Node) cb h cb' w :
  h ∉ links →
  listeners w = (h, "click", cb) :: map (fun item => (item, "click", cb')) links →
  listeners_on h "click" w = [cb].
Proof.
  intros Hnot Hl. unfold listeners_on. rewrite Hl. simpl.
  rewrite bool_decide_eq_true_2 by done. f_equal. clear Hl.
  induction links as [|item links IH]; [done|]. simpl.
  apply not_elem_of_cons in Hnot as [Hne Hnot].
  rewrite bool_decide_eq_false_2; [by apply IH|]. simpl. intros [? _]. congruence.
Qed.

Lemma in_step_after cb h m w :
  bound_to h m cb → in_step h m w → in_step h m (after cb w).
Proof.
  intros Hcb (Hh & Hm & Hls & Heq).
  destruct (same_but_active_after cb w) as (Hl & _).
  split; [by apply is_Some_after|]. split; [by apply is_Some_after|].
  split; [by rewrite Hl|]. by apply markers_equal_after.
Qed.

Lemma in_step_invoke (cbs : list Closure) h m w :
  Forall (bound_to h m) cbs → in_step h m w → in_step h m (invoke cbs w).1.
Proof.
  intros Hcbs. revert w. induction Hcbs as [|cb cbs Hcb _ IH]; intros w Hw; simpl.
  - done.
  - pose proof (in_step_after cb h m w Hcb Hw) as H1. unfold after in H1.
    destruct (call cb w) as [w1 r]. specialize (IH w1 H1).
    by destruct (invoke cbs w1) as [w2 errs].
Qed.

Lemma in_step_propagate (path : list Node) h m w :
  in_step h m w → in_step h m (propagate path w).1.
Proof.
  revert w. induction path as [|n path IH]; intros w Hw; simpl.
  - done.
  - assert (Hcbs : Forall (bound_to h m) (listeners_on n "click" w)).
    { apply Forall_forall. intros cb (l & Hl & <-)%elem_of_listeners_on.
      destruct Hw as (_ & _ & Hls & _). by apply Hls. }
    pose proof (in_step_invoke _ h m w Hcbs Hw) as H1.
    destruct (invoke (listeners_on n "click" w) w) as [w1 errs1]. specialize (IH w1 H1).
    by destruct (propagate path w1) as [w2 errs2].
Qed.

Lemma in_step_step ev h m w : in_step h m w → in_step h m (step ev w).
Proof.
  intros Hw. destruct ev as [target ancestors]. unfold step, dispatchEvent.
  by apply in_step_propagate.
Qed.

Lemma in_step_loaded h m w :
  listeners w = [] →
  select_first ".hamburger" (dom w) = Some h →
  select_first ".nav-menu" (dom w) = Some m →
  active h w = active m w →
  in_step h m (loaded w).
Proof.
  intros Hl Hh Hm Heq. unfold loaded.
  rewrite (on_DOMContentLoaded_found w h Hh), Hm, Hl. cbn [fst].
  split; [by eapply select_first_is_Some|]. split; [by eapply select_first_is_Some|].
  split; [|done]. simpl. intros l [->|Hin]%elem_of_cons.
  - by left.
  - apply list_elem_of_fmap in Hin as (item & -> & _). by right.
Qed.

(** With the hamburger's listener alone in the table, a click runs it when
    the hamburger is on the path and nothing otherwise; it never throws. *)
Lemma propagate_single_quiet (path : list Node) h m w :
  listeners w = [(h, "click", hamburger_click (Some h) (Some m))] →
  (propagate path w).2 = [].
Proof.
  revert w. induction path as [|n path IH]; intros w Hl; cbn [propagate]; [done|].
  rewrite (listeners_on_single h _ n w Hl). case_decide; cbn [invoke].
  - rewrite call_hamburger_click.
    set (w1 := (classList_toggle (Some m) "active" _).1).
    assert (Hl1 : listeners w1 = listeners w) by done.
    rewrite Hl in Hl1. specialize (IH w1 Hl1).
    by destruct (propagate path w1) as [w2 errs2]; simplify_eq/=.
  - specialize (IH w Hl). by destruct (propagate path w) as [w2 errs2]; simplify_eq/=.
Qed.

Lemma propagate_single_miss (path : list Node) h cb w :
  listeners w = [(h, "click", cb)] → h ∉ path → (propagate path w).1 = w.
Proof.
  intros Hl. induction path as [|n path IH]; intros Hnot; cbn [propagate]; [done|].
  apply not_elem_of_cons in Hnot as [Hne Hnot].
  rewrite (listeners_on_single h _ n w Hl), decide_False by done. cbn [invoke].
  specialize (IH Hnot). by destruct (propagate path w) as [w2 errs2]; simplify_eq/=.
Qed.

End Dispatch.

(** * The properties of the menu *)

(** C1. On a page whose hamburger and menu both start without the [active]
    marker, once the script has run, the two markers are equal in every state
    reachable by clicks, whatever their targets and bubbling paths. *)
Theorem markers_equal_invariant (w0 : World) (h m : Node) (w : World) :
  listeners w0 = [] →
  select_first ".hamburger" (dom w0) = Some h →
  select_first ".nav-menu" (dom w0) = Some m →
  active h w0 = false →
  active m w0 = false →
  reachable (loaded w0) w →
  active h w = active m w.
Proof.
  intros Hl Hh Hm Ah Am Hreach.
  enough (in_step h m w) as (_ & _ & _ & Heq) by done.
  induction Hreach as [|w ev _ IH].
  - apply in_step_loaded; congruence.
  - by apply in_step_step.
Qed.

Lemma markers_equal_invariant_witness :
  active 4 (step (Click 2 [1; 0]) (step (Click 4 [0]) (loaded (fresh page)))) =
  active 1 (step (Click 2 [1; 0]) (step (Click 4 [0]) (loaded (fresh page)))).
Proof.
  apply (markers_equal_invariant (fresh page) 4 1); try reflexivity.
  do 2 apply reachable_step. apply reachable_refl.
Defined.

(** C4. From the closed state, [N] clicks on the hamburger end open when [N]
    is odd and closed when [N] is even; and from any state [w'] two clicks
    put every token of every element back and leave the rest as it was. *)
Theorem toggle_clicks_parity (N : nat) (h m : Node) (w w' : World) :
  h ≠ m →
  is_Some (dom w !! h) →
  is_Some (dom w !! m) →
  is_closed h m w →
  (if Nat.odd N then is_open h m (toggle_clicks N h m w)
   else is_closed h m (toggle_clicks N h m w)) ∧
  (∀ c k, has_class c k (toggle_clicks 2 h m w') = has_class c k w') ∧
  same_but_active w' (toggle_clicks 2 h m w').
Proof.
  intros Hne Hh Hm [Ah Am]. split; [|split].
  - assert (Hinv : is_Some (dom (toggle_clicks N h m w) !! h) ∧
                   is_Some (dom (toggle_clicks N h m w) !! m) ∧
                   active h (toggle_clicks N h m w) = Nat.odd N ∧
                   active m (toggle_clicks N h m w) = Nat.odd N).
    { induction N as [|N (IHh & IHm & IHah & IHam)]; [done|].
      change (toggle_clicks (S N) h m w) with
        (after (hamburger_click (Some h) (Some m)) (toggle_clicks N h m w)).
      rewrite !is_Some_after, active_after_hamburger_click_h,
        active_after_hamburger_click_m, IHah, IHam by done.
      by rewrite Nat.odd_succ, Nat.negb_odd. }
    destruct Hinv as (_ & _ & Hah & Ham). unfold is_open, is_closed.
    rewrite Hah, Ham. by destruct (Nat.odd N).
  - intros c k. apply has_class_after_two_clicks.
  - eapply same_but_active_trans; apply same_but_active_after.
Qed.

Lemma toggle_clicks_parity_witness :
  is_open 4 1 (toggle_clicks 3 4 1 (fresh page)).
Proof.
  destruct (toggle_clicks_parity 3 4 1 (fresh page) (fresh page)) as (Hodd & _).
  - lia.
  - by exists (el ["hamburger"]).
  - by exists (el ["nav-menu"]).
  - by split.
  - exact Hodd.
Defined.

(** ** Removing a marker that is not there *)

Section Removal.
Implicit Types (w : World) (h m n : Node).

Lemma alter_fix (f : Element → Element) n (d : list Element) :
  (∀ e, d !! n = Some e → f e = e) → alter f n d = d.
Proof.
  intros Hf. apply list_eq. intros j. rewrite list_lookup_alter.
  case_decide; [subst j|done].
  destruct (d !! n) as [e|] eqn:He; simpl; [|done]. by rewrite Hf.
Qed.

Lemma classList_remove_absent n w :
  active n w = false → (classList_remove (Some n) "active" w).1 = w.
Proof.
  unfold active, has_class. intros Hn. unfold classList_remove. cbn [fst].
  rewrite alter_fix; [by destruct w|].
  intros e He. rewrite He in Hn. simpl in Hn.
  unfold set_classList. rewrite remove_absent by done. by destruct e.
Qed.

Lemma call_nav_link_click_closed h m w :
  is_closed h m w → call (nav_link_click (Some h) (Some m)) w = (w, Normal tt).
Proof.
  intros [Ah Am]. rewrite call_nav_link_click.
  by rewrite (classList_remove_absent h w Ah), (classList_remove_absent m w Am).
Qed.

End Removal.

(** C5, as the script has it.  Initialization throws exactly when the lookup
    of the hamburger yields [null], and then registers nothing.  With the
    hamburger present and the menu lookup [null], initialization completes,
    and each listener it registered throws whenever it runs. *)
Theorem initialization_fails_iff_no_hamburger (w : World) :
  ((on_DOMContentLoaded w).2 = Throw TypeError ↔
   select_first ".hamburger" (dom w) = None) ∧
  (select_first ".hamburger" (dom w) = None →
   on_DOMContentLoaded w = (w, Throw TypeError)) ∧
  (∀ h, select_first ".hamburger" (dom w) = Some h →
        select_first ".nav-menu" (dom w) = None →
        (on_DOMContentLoaded w).2 = Normal tt ∧
        ∀ l, l ∈ listeners (loaded w) →
             l ∈ listeners w ∨ ∀ w', (call l.2 w').2 = Throw TypeError).
Proof.
  split; [|split].
  - destruct (select_first ".hamburger" (dom w)) as [h|] eqn:Hh.
    + rewrite (on_DOMContentLoaded_found w h Hh). done.
    + rewrite (on_DOMContentLoaded_null w Hh). done.
  - apply on_DOMContentLoaded_null.
  - intros h Hh Hm. unfold loaded. rewrite (on_DOMContentLoaded_found w h Hh), Hm.
    split; [done|]. cbn [fst set_listeners listeners].
    intros l [Hold|[->|Hnew]%elem_of_cons]%elem_of_app.
    + by left.
    + right. intros w'. done.
    + right. intros w'. apply list_elem_of_fmap in Hnew as (item & -> & _). done.
Qed.

Lemma initialization_fails_iff_no_hamburger_witness :
  on_DOMContentLoaded (fresh page_no_hamburger) = (fresh page_no_hamburger, Throw TypeError) ∧
  (on_DOMContentLoaded (fresh page_no_menu)).2 = Normal tt.
Proof.
  split.
  - destruct (initialization_fails_iff_no_hamburger (fresh page_no_hamburger))
      as (_ & Hnull & _).
    apply Hnull. reflexivity.
  - destruct (initialization_fails_iff_no_hamburger (fresh page_no_menu))
      as (_ & _ & Hmenu).
    destruct (Hmenu 2) as [Hok _]; [reflexivity..|]. exact Hok.
Defined.

(** C5, as the spec states it, fails: on a page with a hamburger and no menu
    the menu lookup yields [null] and initialization completes normally. *)
Lemma initialization_without_menu_completes :
  ¬ (∀ w : World,
       select_first ".hamburger" (dom w) = None ∨
       select_first ".nav-menu" (dom w) = None →
       (on_DOMContentLoaded w).2 = Throw TypeError).
Proof.
  intros Hclaim. specialize (Hclaim (fresh page_no_menu)).
  assert (Hnull : select_first ".nav-menu" (dom (fresh page_no_menu)) = None)
    by reflexivity.
  specialize (Hclaim (or_intror Hnull)).
  assert (Hok : (on_DOMContentLoaded (fresh page_no_menu)).2 = Normal tt)
    by reflexivity.
  rewrite Hok in Hclaim. discriminate.
Qed.

(** C6. In the closed state a link's click listener changes nothing at all,
    and from any state [w'] running it twice is the same as running it once. *)
Theorem nav_link_click_closed_noop (h m : Node) (w w' : World) :
  is_closed h m w →
  call (nav_link_click (Some h) (Some m)) w = (w, Normal tt) ∧
  after (nav_link_click (Some h) (Some m)) (after (nav_link_click (Some h) (Some m)) w') =
    after (nav_link_click (Some h) (Some m)) w'.
Proof.
  intros Hclosed. split; [by apply call_nav_link_click_closed|].
  unfold after at 1. rewrite call_nav_link_click_closed; [done|].
  split; [apply active_after_nav_link_click_h | apply active_after_nav_link_click_m].
Qed.

Lemma nav_link_click_closed_noop_witness :
  call (nav_link_click (Some 4) (Some 1)) (fresh page) = (fresh page, Normal tt).
Proof.
  destruct (nav_link_click_closed_noop 4 1 (fresh page) (fresh page_icon_open))
    as [Hnoop _]; [by split | exact Hnoop].
Defined.

(** ** A page without links *)

Section NoLinks.
Implicit Types (w : World) (h m : Node).

Lemma reachable_listeners w0 w : reachable w0 w → listeners w = listeners w0.
Proof.
  induction 1 as [|w ev _ IH]; [done|]. by rewrite listeners_step.
Qed.

Lemma reachable_is_Some w0 w (k : Node) :
  reachable w0 w → is_Some (dom w !! k) ↔ is_Some (dom w0 !! k).
Proof.
  induction 1 as [|w ev _ IH]; [done|].
  by rewrite <- IH, !lookup_lt_is_Some, length_dom_step.
Qed.

Lemma step_click_single h cb w :
  listeners w = [(h, "click", cb)] →
  step (Click h []) w = after cb (set_defaultPrevented false w).
Proof.
  intros Hl. unfold step, dispatchEvent. cbn [propagate].
  rewrite (listeners_on_single h cb h (set_defaultPrevented false w)) by done.
  rewrite decide_True by done. cbn [invoke]. unfold after.
  by destruct (call cb (set_defaultPrevented false w)) as [w1 r].
Qed.

End NoLinks.

(** C7. On a page without links the script completes normally and registers
    the hamburger's listener only.  From then on no click ever raises an
    error, a click whose path misses the hamburger changes no element, and a
    click on the hamburger runs its listener and negates both markers. *)
Theorem no_links_toggle_still_works (w0 : World) (h m : Node) (w : World) :
  listeners w0 = [] →
  select_all ".nav-link" (dom w0) = [] →
  select_first ".hamburger" (dom w0) = Some h →
  select_first ".nav-menu" (dom w0) = Some m →
  h ≠ m →
  reachable (loaded w0) w →
  (on_DOMContentLoaded w0).2 = Normal tt ∧
  listeners w = [(h, "click", hamburger_click (Some h) (Some m))] ∧
  (∀ ev, (dispatchEvent ev w).2 = []) ∧
  (∀ target ancestors, h ∉ target :: ancestors →
     dom (step (Click target ancestors) w) = dom w) ∧
  step (Click h []) w =
    after (hamburger_click (Some h) (Some m)) (set_defaultPrevented false w) ∧
  active h (step (Click h []) w) = negb (active h w) ∧
  active m (step (Click h []) w) = negb (active m w).
Proof.
  intros Hl Hlinks Hh Hm Hne Hreach.
  assert (Hloaded : on_DOMContentLoaded w0 =
            (set_listeners [(h, "click", hamburger_click (Some h) (Some m))] w0, Normal tt)).
  { rewrite (on_DOMContentLoaded_found w0 h Hh), Hm, Hlinks, Hl. done. }
  assert (Hlw : listeners w = [(h, "click", hamburger_click (Some h) (Some m))]).
  { rewrite (reachable_listeners _ _ Hreach). unfold loaded. by rewrite Hloaded. }
  assert (Hsome : ∀ k, is_Some (dom w0 !! k) → is_Some (dom w !! k)).
  { intros k Hk. apply (reachable_is_Some _ _ k Hreach). by rewrite dom_loaded. }
  pose proof (Hsome h (select_first_is_Some _ _ _ Hh)) as Hhw.
  pose proof (Hsome m (select_first_is_Some _ _ _ Hm)) as Hmw.
  split; [by rewrite Hloaded|]. split; [done|]. split; [|split; [|split]].
  - intros [target ancestors]. unfold dispatchEvent.
    by apply (propagate_single_quiet _ h m).
  - intros target ancestors Hmiss. unfold step, dispatchEvent.
    by rewrite (propagate_single_miss _ h (hamburger_click (Some h) (Some m))).
  - by apply step_click_single.
  - rewrite (step_click_single h _ w Hlw).
    rewrite active_after_hamburger_click_h, active_after_hamburger_click_m by done.
    done.
Qed.

Lemma no_links_toggle_still_works_witness :
  (on_DOMContentLoaded (fresh page_no_links)).2 = Normal tt ∧
  active 2 (step (Click 2 []) (loaded (fresh page_no_links))) =
    negb (active 2 (loaded (fresh page_no_links))) ∧
  active 1 (step (Click 2 []) (loaded (fresh page_no_links))) =
    negb (active 1 (loaded (fresh page_no_links))).
Proof.
  destruct (no_links_toggle_still_works (fresh page_no_links) 2 1
              (loaded (fresh page_no_links)))
    as (Hok & _ & _ & _ & _ & Hh & Hm); try reflexivity.
  - lia.
  - apply reachable_refl.
  - split; [exact Hok|]. split; [exact Hh | exact Hm].
Defined.

(** C8. A listener of the script, whichever it is and whatever it captured,
    leaves the listener table, the cancel flag of the event, the number of
    elements, and every attribute and every token other than [active] of
    every element as they were; an element that is neither its hamburger nor
    its menu is left untouched; and after a click has been dispatched the
    event is not cancelled, so the default action of a link goes ahead. *)
Theorem listeners_touch_only_active (cb : Closure) (w : World) :
  same_but_active w (after cb w) ∧
  (∀ k, hamburger_of cb ≠ Some k → navMenu_of cb ≠ Some k →
        dom (after cb w) !! k = dom w !! k) ∧
  (∀ c k, c ≠ "active" → has_class c k (after cb w) = has_class c k w) ∧
  (∀ ev, defaultPrevented (step ev w) = false ∧
         same_but_active (set_defaultPrevented false w) (step ev w)).
Proof.
  split; [apply same_but_active_after|].
  split; [intros k; apply lookup_after_other|]. split.
  - intros c k Hc. destruct (same_but_active_after cb w) as (_ & _ & _ & Hrest).
    specialize (Hrest k). unfold has_class.
    destruct (dom (after cb w) !! k) as [e'|], (dom w !! k) as [e|]; simplify_eq/=; [|done].
    assert (Hcl : DOMTokenList.remove "active" (classList e') =
                  DOMTokenList.remove "active" (classList e)) by congruence.
    pose proof (contains_remove "active" c (classList e')) as H1.
    pose proof (contains_remove "active" c (classList e)) as H2.
    rewrite decide_False in H1, H2 by done. congruence.
  - intros [target ancestors]. unfold step, dispatchEvent.
    pose proof (same_but_active_propagate (target :: ancestors)
                  (set_defaultPrevented false w)) as Hsame.
    split; [|done]. by destruct Hsame as (_ & -> & _).
Qed.

Lemma listeners_touch_only_active_witness :
  dom (after (nav_link_click (Some 2) (Some 0)) (fresh page_icon_open)) !! 1 =
    dom (fresh page_icon_open) !! 1 ∧
  has_class "hamburger" 2 (after (nav_link_click (Some 2) (Some 0)) (fresh page_icon_open)) =
    has_class "hamburger" 2 (fresh page_icon_open).
Proof.
  destruct (listeners_touch_only_active (nav_link_click (Some 2) (Some 0))
              (fresh page_icon_open)) as (_ & Hother & Htok & _).
  split.
  - apply Hother; simpl; congruence.
  - apply Htok. discriminate.
Defined.



(** C10. With the hamburger present and the menu lookup [null], the script
    completes normally and registers the hamburger's listener.  Whenever that
    listener runs it negates the hamburger's marker and then throws, so the
    world it leaves differs from the one it found; on a page whose hamburger
    is not itself a link, the first click on the hamburger does exactly
    this. *)
Theorem missing_menu_fails_at_click (w0 : World) (h : Node) :
  select_first ".hamburger" (dom w0) = Some h →
  select_first ".nav-menu" (dom w0) = None →
  (on_DOMContentLoaded w0).2 = Normal tt ∧
  (h, "click", hamburger_click (Some h) None) ∈ listeners (loaded w0) ∧
  (∀ w, is_Some (dom w !! h) →
        (call (hamburger_click (Some h) None) w).2 = Throw TypeError ∧
        active h (after (hamburger_click (Some h) None) w) = negb (active h w) ∧
        after (hamburger_click (Some h) None) w ≠ w) ∧
  (listeners w0 = [] → h ∉ select_all ".nav-link" (dom w0) →
     (dispatchEvent (Click h []) (loaded w0)).2 = [TypeError] ∧
     active h (step (Click h []) (loaded w0)) = negb (active h w0)).
Proof.
  intros Hh Hm.
  pose proof (on_DOMContentLoaded_found w0 h Hh) as Hloaded. rewrite Hm in Hloaded.
  assert (Hflip : ∀ w, is_Some (dom w !! h) →
            active h (after (hamburger_click (Some h) None) w) = negb (active h w)).
  { intros w Hw. by apply active_toggle_same. }
  split; [by rewrite Hloaded|]. split; [|split].
  - unfold loaded. rewrite Hloaded. cbn [fst set_listeners listeners].
    apply elem_of_app. right. apply elem_of_cons. by left.
  - intros w Hw. split; [done|]. split; [by apply Hflip|].
    intros Heq. specialize (Hflip w Hw). rewrite Heq in Hflip.
    by destruct (active h w).
  - intros Hl Hnot.
    assert (Hon : listeners_on h "click" (set_defaultPrevented false (loaded w0)) =
                  [hamburger_click (Some h) None]).
    { eapply listeners_on_links; [exact Hnot|].
      unfold loaded. rewrite Hloaded, Hl. done. }
    unfold step, dispatchEvent. cbn [propagate]. rewrite Hon. cbn [invoke].
    change (call (hamburger_click (Some h) None) ?w) with
      ((classList_toggle (Some h) "active" w).1, @Throw unit TypeError).
    cbn [fst snd app]. split; [done|].
    rewrite active_toggle_same.
    + unfold loaded. by rewrite Hloaded.
    + cbn [dom set_defaultPrevented]. rewrite dom_loaded.
      by eapply select_first_is_Some.
Qed.

Lemma missing_menu_fails_at_click_witness :
  (on_DOMContentLoaded (fresh page_no_menu)).2 = Normal tt ∧
  (dispatchEvent (Click 2 []) (loaded (fresh page_no_menu))).2 = [TypeError] ∧
  active 2 (step (Click 2 []) (loaded (fresh page_no_menu))) =
    negb (active 2 (fresh page_no_menu)).
Proof.
  destruct (missing_menu_fails_at_click (fresh page_no_menu) 2)
    as (Hok & _ & _ & Hclick); try reflexivity.
  destruct Hclick as [Herr Hflip]; [reflexivity | |].
  - change (2 ∉ [1]). intros [Heq|Hnil]%elem_of_cons; [discriminate|].
    by apply elem_of_nil in Hnil.
  - split; [exact Hok|]. split; [exact Herr | exact Hflip].
Defined.


(** * Further properties of the script *)

(** ** The listener table of a loaded page *)

Section Table.
Implicit Types (w : World) (h n : Node) (cb : Closure) (links : list Node).

Lemma select_from_ge sel i (d : list Element) n : n ∈ select_from sel i d → i ≤ n.
Proof. by intros (e & Hle & _)%select_from_spec. Qed.

Lemma NoDup_select_from sel (d : list Element) : ∀ i, NoDup (select_from sel i d).
Proof.
  induction d as [|e d IH]; intros i; simpl; [constructor|].
  destruct (matches sel e); [|apply IH].
  constructor; [|apply IH]. intros Hin%select_from_ge. lia.
Qed.

Lemma listeners_on_eq n (type : string) w w' :
  listeners w = listeners w' → listeners_on n type w = listeners_on n type w'.
Proof. unfold listeners_on. by intros ->. Qed.

Lemma listeners_on_app n (type : string) (a b : list (Node * string * Closure)) w :
  listeners_on n type (set_listeners (a ++ b) w) =
    listeners_on n type (set_listeners a w) ++ listeners_on n type (set_listeners b w).
Proof. unfold listeners_on. simpl. apply omap_app. Qed.

Lemma listeners_on_links_only links n cb w :
  NoDup links →
  listeners_on n "click" (set_listeners (map (fun item => (item, "click", cb)) links) w) =
    if decide (n ∈ links) then [cb] else [].
Proof.
  unfold listeners_on. cbn [listeners set_listeners].
  induction 1 as [|item links Hnot _ IH]; [done|].
  rewrite map_cons.
  change (omap ?f (?x :: ?l)) with
    (match f x with Some y => y :: omap f l | None => omap f l end).
  rewrite IH. cbn [fst snd].
  destruct (decide (item = n)) as [->|Hne].
  - rewrite bool_decide_eq_true_2 by done.
    rewrite decide_False by done. rewrite decide_True; [done|]. apply elem_of_cons. by left.
  - rewrite bool_decide_eq_false_2 by tauto.
    destruct (decide (n ∈ links)) as [Hin|Hout].
    + rewrite decide_True; [done|]. apply elem_of_cons. by right.
    + rewrite decide_False; [done|]. rewrite not_elem_of_cons. split; congruence.
Qed.

Lemma listeners_on_table links h n cb cb' w :
  NoDup links →
  listeners_on n "click"
    (set_listeners ((h, "click", cb) :: map (fun item => (item, "click", cb')) links) w) =
    (if decide (h = n) then [cb] else []) ++ (if decide (n ∈ links) then [cb'] else []).
Proof.
  intros Hnd.
  change ((h, "click", cb) :: map (fun item => (item, "click", cb')) links)
    with ([(h, "click", cb)] ++ map (fun item => (item, "click", cb')) links).
  rewrite listeners_on_app, listeners_on_links_only by done. f_equal.
  apply listeners_on_single. done.
Qed.

(** The listeners a click on [n] finds on a page the script has loaded. *)
Lemma listeners_on_loaded w0 h n :
  listeners w0 = [] →
  select_first ".hamburger" (dom w0) = Some h →
  listeners_on n "click" (loaded w0) =
    (if decide (h = n)
     then [hamburger_click (Some h) (select_first ".nav-menu" (dom w0))] else []) ++
    (if decide (n ∈ select_all ".nav-link" (dom w0))
     then [nav_link_click (Some h) (select_first ".nav-menu" (dom w0))] else []).
Proof.
  intros Hl Hh.
  rewrite <- (listeners_on_table _ h n _ _ w0) by apply NoDup_select_from.
  apply listeners_on_eq. unfold loaded.
  rewrite (on_DOMContentLoaded_found w0 h Hh), Hl. done.
Qed.

Lemma listeners_on_reachable w0 w n (type : string) :
  reachable w0 w → listeners_on n type (set_defaultPrevented false w) = listeners_on n type w0.
Proof.
  intros Hreach. apply listeners_on_eq. simpl. by apply reachable_listeners.
Qed.

Lemma propagate_quiet (path : list Node) w :
  (∀ n, n ∈ path → listeners_on n "click" w = []) → propagate path w = (w, []).
Proof.
  induction path as [|n path IH]; intros Hq; cbn [propagate]; [done|].
  rewrite Hq by (apply elem_of_cons; by left). cbn [invoke].
  rewrite IH; [done|]. intros k Hk. apply Hq, elem_of_cons. by right.
Qed.

Lemma propagate_app (a b : list Node) w :
  propagate (a ++ b) w =
    ((propagate b (propagate a w).1).1,
     (propagate a w).2 ++ (propagate b (propagate a w).1).2).
Proof.
  revert w. induction a as [|n a IH]; intros w; cbn [propagate app].
  - cbn [fst snd app]. by destruct (propagate b w).
  - destruct (invoke (listeners_on n "click" w) w) as [w1 errs1].
    rewrite IH. destruct (propagate a w1) as [w2 errs2]. cbn [fst snd].
    destruct (propagate b w2) as [w3 errs3]. cbn [fst snd]. by rewrite app_assoc.
Qed.

Lemma listeners_propagate (path : list Node) w :
  listeners (propagate path w).1 = listeners w.
Proof. by destruct (same_but_active_propagate path w) as (-> & _). Qed.

Lemma is_Some_propagate (path : list Node) (k : Node) w :
  is_Some (dom (propagate path w).1 !! k) ↔ is_Some (dom w !! k).
Proof.
  destruct (same_but_active_propagate path w) as (_ & _ & Hlen & _).
  by rewrite !lookup_lt_is_Some, Hlen.
Qed.

End Table.

(** ** Clicks on a loaded page *)

Section Clicks.
Implicit Types (w : World) (h m n : Node) (cb : Closure) (path : list Node).

Lemma listeners_on_after cb n (type : string) w :
  listeners_on n type (after cb w) = listeners_on n type w.
Proof. apply listeners_on_eq. by destruct (same_but_active_after cb w) as (-> & _). Qed.

Lemma call_bound_hamburger_click h m w :
  call (hamburger_click (Some h) (Some m)) w =
    (after (hamburger_click (Some h) (Some m)) w, Normal tt).
Proof. unfold after. by rewrite call_hamburger_click. Qed.

Lemma call_bound_nav_link_click h m w :
  call (nav_link_click (Some h) (Some m)) w =
    (after (nav_link_click (Some h) (Some m)) w, Normal tt).
Proof. unfold after. by rewrite call_nav_link_click. Qed.

Lemma is_closed_after_nav_link_click h m w :
  is_closed h m (after (nav_link_click (Some h) (Some m)) w).
Proof.
  split; [apply active_after_nav_link_click_h | apply active_after_nav_link_click_m].
Qed.

(** Along a path on which only link listeners sit, nothing throws, a closed
    menu stays closed, and one listener is enough to close it. *)
Lemma propagate_closers path h m w :
  (∀ n, n ∈ path →
        listeners_on n "click" w = [] ∨
        listeners_on n "click" w = [nav_link_click (Some h) (Some m)]) →
  (propagate path w).2 = [] ∧
  (is_closed h m w ∨ (∃ n, n ∈ path ∧ listeners_on n "click" w ≠ []) →
   is_closed h m (propagate path w).1).
Proof.
  revert w. induction path as [|n path IH]; intros w Hc; cbn [propagate].
  - split; [done|]. intros [Hclosed|(n & Hn & _)]; [done|]. by apply elem_of_nil in Hn.
  - assert (Hrest : ∀ k, k ∈ path →
              listeners_on k "click" w = [] ∨
              listeners_on k "click" w = [nav_link_click (Some h) (Some m)]).
    { intros k Hk. apply Hc, elem_of_cons. by right. }
    destruct (Hc n) as [Hn|Hn]; [apply elem_of_cons; by left| |]; rewrite Hn; cbn [invoke].
    + destruct (IH w Hrest) as [Herr Hclosed].
      destruct (propagate path w) as [w2 errs2]. cbn [fst snd app] in *.
      split; [done|]. intros [Hw|(k & [->|Hk]%elem_of_cons & Hnon)].
      * by apply Hclosed; left.
      * congruence.
      * apply Hclosed. right. by exists k.
    + rewrite call_bound_nav_link_click.
      set (w1 := after (nav_link_click (Some h) (Some m)) w).
      destruct (IH w1) as [Herr Hclosed].
      { intros k Hk. unfold w1. rewrite listeners_on_after. by apply Hrest. }
      destruct (propagate path w1) as [w2 errs2]. cbn [fst snd app] in *.
      split; [done|]. intros _. apply Hclosed. left. apply is_closed_after_nav_link_click.
Qed.

(** Away from the hamburger, a loaded page carries link listeners only. *)
Lemma closers_off_hamburger w0 h m w n :
  listeners w0 = [] →
  select_first ".hamburger" (dom w0) = Some h →
  select_first ".nav-menu" (dom w0) = Some m →
  listeners w = listeners (loaded w0) →
  n ≠ h →
  listeners_on n "click" w =
    if decide (n ∈ select_all ".nav-link" (dom w0))
    then [nav_link_click (Some h) (Some m)] else [].
Proof.
  intros Hl Hh Hm Hw Hne.
  rewrite (listeners_on_eq n "click" w (loaded w0) Hw).
  rewrite (listeners_on_loaded w0 h n Hl Hh), Hm. by rewrite decide_False by congruence.
Qed.

End Clicks.

(** X1. On a page with a hamburger and no earlier listeners, the script
    leaves the document and the cancel flag alone and registers one listener
    more than there are links; a click on an element then finds the toggle
    listener if the element is the hamburger, followed by one closing
    listener if the element is a link, and nothing else. *)
Theorem script_wires_each_element_once (w0 : World) (h n : Node) :
  listeners w0 = [] →
  select_first ".hamburger" (dom w0) = Some h →
  dom (loaded w0) = dom w0 ∧
  defaultPrevented (loaded w0) = defaultPrevented w0 ∧
  length (listeners (loaded w0)) = S (length (select_all ".nav-link" (dom w0))) ∧
  listeners_on n "click" (loaded w0) =
    (if decide (h = n)
     then [hamburger_click (Some h) (select_first ".nav-menu" (dom w0))] else []) ++
    (if decide (n ∈ select_all ".nav-link" (dom w0))
     then [nav_link_click (Some h) (select_first ".nav-menu" (dom w0))] else []).
Proof.
  intros Hl Hh. split; [apply dom_loaded|]. split; [|split].
  - unfold loaded. by rewrite (on_DOMContentLoaded_found w0 h Hh).
  - unfold loaded. rewrite (on_DOMContentLoaded_found w0 h Hh), Hl.
    cbn [fst listeners set_listeners app length]. by rewrite length_map.
  - by apply listeners_on_loaded.
Qed.

Lemma script_wires_each_element_once_witness :
  length (listeners (loaded (fresh page))) = 3 ∧
  listeners_on 3 "click" (loaded (fresh page)) = [nav_link_click (Some 4) (Some 1)].
Proof.
  destruct (script_wires_each_element_once (fresh page) 4 3) as (_ & _ & Hlen & Hon);
    [reflexivity..|].
  split; [exact Hlen | exact Hon].
Defined.

(** X2. On a loaded page, a click whose path holds neither the hamburger the
    script found nor any link runs no listener: the world is as before, with
    the cancel flag of the new event cleared, and no error is reported. *)
Theorem click_elsewhere_changes_nothing
    (w0 : World) (h : Node) (w : World) (target : Node) (ancestors : list Node) :
  listeners w0 = [] →
  select_first ".hamburger" (dom w0) = Some h →
  reachable (loaded w0) w →
  h ∉ target :: ancestors →
  (∀ n, n ∈ target :: ancestors → n ∉ select_all ".nav-link" (dom w0)) →
  dispatchEvent (Click target ancestors) w = (set_defaultPrevented false w, []).
Proof.
  intros Hl Hh Hreach Hmiss Hnolink. unfold dispatchEvent.
  apply propagate_quiet. intros n Hn.
  rewrite (listeners_on_reachable _ _ n "click" Hreach).
  rewrite (listeners_on_loaded w0 h n Hl Hh).
  rewrite decide_False by (intros ->; by apply Hmiss).
  by rewrite decide_False by by apply Hnolink.
Qed.

Lemma click_elsewhere_changes_nothing_witness :
  dispatchEvent (Click 0 []) (step (Click 4 [0]) (loaded (fresh page))) =
    (set_defaultPrevented false (step (Click 4 [0]) (loaded (fresh page))), []).
Proof.
  apply (click_elsewhere_changes_nothing (fresh page) 4); try reflexivity.
  - apply reachable_step, reachable_refl.
  - intros [Heq|Hnil]%elem_of_cons; [discriminate | by apply elem_of_nil in Hnil].
  - intros n [->|Hnil]%elem_of_cons; [|by apply elem_of_nil in Hnil].
    change (0 ∉ [2; 3]).
    intros [Heq|[Heq|Hnil]%elem_of_cons]%elem_of_cons;
      [discriminate | discriminate | by apply elem_of_nil in Hnil].
Defined.

(** X3. On a page without a hamburger the script throws and leaves the world
    as it found it; from then on no click changes any element and no click
    reports an error. *)
Theorem no_hamburger_page_is_inert (w0 w : World) :
  listeners w0 = [] →
  select_first ".hamburger" (dom w0) = None →
  reachable (loaded w0) w →
  loaded w0 = w0 ∧
  listeners w = [] ∧
  dom w = dom w0 ∧
  ∀ ev, dispatchEvent ev w = (set_defaultPrevented false w, []).
Proof.
  intros Hl Hh Hreach.
  assert (Hloaded : loaded w0 = w0).
  { unfold loaded. by rewrite (on_DOMContentLoaded_null w0 Hh). }
  rewrite Hloaded in Hreach.
  assert (Hquiet : ∀ w1 ev, listeners w1 = [] →
            dispatchEvent ev w1 = (set_defaultPrevented false w1, [])).
  { intros w1 [target ancestors] Hl1. unfold dispatchEvent. apply propagate_quiet.
    intros n _. unfold listeners_on. cbn [listeners set_defaultPrevented]. by rewrite Hl1. }
  assert (Hinv : listeners w = [] ∧ dom w = dom w0).
  { induction Hreach as [|w ev _ [IHl IHd]]; [done|].
    unfold step. rewrite (Hquiet w ev IHl). done. }
  destruct Hinv as [Hlw Hdw]. repeat split; [done..|].
  intros ev. by apply Hquiet.
Qed.

Lemma no_hamburger_page_is_inert_witness :
  loaded (fresh page_no_hamburger) = fresh page_no_hamburger ∧
  dom (step (Click 2 [1; 0]) (loaded (fresh page_no_hamburger))) = page_no_hamburger.
Proof.
  destruct (no_hamburger_page_is_inert (fresh page_no_hamburger)
              (step (Click 2 [1; 0]) (loaded (fresh page_no_hamburger))))
    as (Hloaded & _ & Hdom & _); try reflexivity.
  - apply reachable_step, reachable_refl.
  - split; [exact Hloaded | exact Hdom].
Defined.

Section LoadedPage.
Implicit Types (w : World) (h m n : Node) (path : list Node).

Lemma listeners_on_loaded_after w0 h n :
  select_first ".hamburger" (dom w0) = Some h →
  listeners_on n "click" (loaded w0) =
    listeners_on n "click" w0 ++
    (if decide (h = n)
     then [hamburger_click (Some h) (select_first ".nav-menu" (dom w0))] else []) ++
    (if decide (n ∈ select_all ".nav-link" (dom w0))
     then [nav_link_click (Some h) (select_first ".nav-menu" (dom w0))] else []).
Proof.
  intros Hh.
  rewrite <- (listeners_on_table _ h n _ _ w0) by apply NoDup_select_from.
  change (listeners_on n "click" w0) with
    (listeners_on n "click" (set_listeners (listeners w0) w0)).
  rewrite <- listeners_on_app. apply listeners_on_eq. unfold loaded.
  by rewrite (on_DOMContentLoaded_found w0 h Hh).
Qed.

Lemma is_Some_reachable_loaded w0 w (sel : string) (k : Node) :
  select_first sel (dom w0) = Some k →
  reachable (loaded w0) w →
  is_Some (dom (set_defaultPrevented false w) !! k).
Proof.
  intros Hk Hreach. cbn [dom set_defaultPrevented].
  apply (reachable_is_Some _ _ k Hreach). rewrite dom_loaded.
  by eapply select_first_is_Some.
Qed.

End LoadedPage.

(** ** A click on the hamburger, a click on a link *)

Section HamburgerAndLink.
Implicit Types (w : World) (h m n : Node) (ancestors : list Node).

(** On a loaded page whose hamburger is not a link, a click on the hamburger
    that bubbles through no link runs the toggle listener, once, and
    nothing else. *)
Lemma dispatch_hamburger_click w0 h m w ancestors :
  listeners w0 = [] →
  select_first ".hamburger" (dom w0) = Some h →
  select_first ".nav-menu" (dom w0) = Some m →
  h ∉ select_all ".nav-link" (dom w0) →
  reachable (loaded w0) w →
  h ∉ ancestors →
  (∀ n, n ∈ ancestors → n ∉ select_all ".nav-link" (dom w0)) →
  dispatchEvent (Click h ancestors) w =
    (after (hamburger_click (Some h) (Some m)) (set_defaultPrevented false w), []).
Proof.
  intros Hl Hh Hm Hhlink Hreach Hmiss Hnolink. unfold dispatchEvent. cbn [propagate].
  rewrite (listeners_on_reachable _ _ h "click" Hreach).
  rewrite (listeners_on_loaded w0 h h Hl Hh), Hm, decide_True, decide_False by done.
  cbn [app invoke]. rewrite call_bound_hamburger_click.
  rewrite propagate_quiet; [done|].
  intros n Hn. rewrite listeners_on_after.
  rewrite (listeners_on_reachable _ _ n "click" Hreach).
  rewrite (listeners_on_loaded w0 h n Hl Hh).
  rewrite decide_False by (intros ->; by apply Hmiss).
  by rewrite decide_False by by apply Hnolink.
Qed.

(** On a loaded page, a click on a link whose path avoids the hamburger
    runs closing listeners only, at least one. *)
Lemma dispatch_link_click w0 h m w target ancestors :
  listeners w0 = [] →
  select_first ".hamburger" (dom w0) = Some h →
  select_first ".nav-menu" (dom w0) = Some m →
  reachable (loaded w0) w →
  target ∈ select_all ".nav-link" (dom w0) →
  h ∉ target :: ancestors →
  (dispatchEvent (Click target ancestors) w).2 = [] ∧
  is_closed h m (dispatchEvent (Click target ancestors) w).1.
Proof.
  intros Hl Hh Hm Hreach Hlink Hmiss. unfold dispatchEvent.
  assert (Hon : ∀ n, n ≠ h →
            listeners_on n "click" (set_defaultPrevented false w) =
              if decide (n ∈ select_all ".nav-link" (dom w0))
              then [nav_link_click (Some h) (Some m)] else []).
  { intros n Hn. apply closers_off_hamburger; try done.
    cbn [listeners set_defaultPrevented]. by apply reachable_listeners. }
  destruct (propagate_closers (target :: ancestors) h m (set_defaultPrevented false w))
    as [Herr Hclosed].
  { intros n Hn. rewrite Hon by (intros ->; by apply Hmiss). case_decide; auto. }
  split; [done|]. apply Hclosed. right. exists target.
  split; [apply elem_of_cons; by left|].
  rewrite Hon, decide_True; [done..|].
  intros ->. apply Hmiss, elem_of_cons. by left.
Qed.

End HamburgerAndLink.

(** C2. On a loaded page whose hamburger and menu are two elements and whose
    hamburger is not a link, in any reachable state, whatever the two markers
    are, a click on the hamburger (bubbling through no link) reports no
    error and negates the marker of the hamburger and the marker of the
    menu, each from its own earlier value; it changes nothing else: not the
    listeners, not another element, not another token or attribute of the
    two elements, and the event is not cancelled.  The listener the click
    runs does the same from every world in which it runs. *)
Theorem hamburger_click_flips
    (w0 : World) (h m : Node) (w : World) (ancestors : list Node) :
  listeners w0 = [] →
  select_first ".hamburger" (dom w0) = Some h →
  select_first ".nav-menu" (dom w0) = Some m →
  h ≠ m →
  h ∉ select_all ".nav-link" (dom w0) →
  reachable (loaded w0) w →
  h ∉ ancestors →
  (∀ n, n ∈ ancestors → n ∉ select_all ".nav-link" (dom w0)) →
  (dispatchEvent (Click h ancestors) w).2 = [] ∧
  active h (step (Click h ancestors) w) = negb (active h w) ∧
  active m (step (Click h ancestors) w) = negb (active m w) ∧
  same_but_active (set_defaultPrevented false w) (step (Click h ancestors) w) ∧
  (∀ k, k ≠ h → k ≠ m → dom (step (Click h ancestors) w) !! k = dom w !! k) ∧
  (∀ w', is_Some (dom w' !! h) → is_Some (dom w' !! m) →
     (call (hamburger_click (Some h) (Some m)) w').2 = Normal tt ∧
     active h (after (hamburger_click (Some h) (Some m)) w') = negb (active h w') ∧
     active m (after (hamburger_click (Some h) (Some m)) w') = negb (active m w') ∧
     same_but_active w' (after (hamburger_click (Some h) (Some m)) w') ∧
     (∀ k, k ≠ h → k ≠ m →
           dom (after (hamburger_click (Some h) (Some m)) w') !! k = dom w' !! k)).
Proof.
  intros Hl Hh Hm Hne Hhlink Hreach Hmiss Hnolink.
  assert (Hrun : ∀ w', is_Some (dom w' !! h) → is_Some (dom w' !! m) →
     (call (hamburger_click (Some h) (Some m)) w').2 = Normal tt ∧
     active h (after (hamburger_click (Some h) (Some m)) w') = negb (active h w') ∧
     active m (after (hamburger_click (Some h) (Some m)) w') = negb (active m w') ∧
     same_but_active w' (after (hamburger_click (Some h) (Some m)) w') ∧
     (∀ k, k ≠ h → k ≠ m →
           dom (after (hamburger_click (Some h) (Some m)) w') !! k = dom w' !! k)).
  { intros w' Hh' Hm'. split; [done|].
    split; [by apply active_after_hamburger_click_h|].
    split; [by apply active_after_hamburger_click_m|].
    split; [apply same_but_active_after|].
    intros k Hkh Hkm. apply lookup_after_other; simpl; congruence. }
  unfold step.
  rewrite (dispatch_hamburger_click w0 h m w ancestors) by done. cbn [fst snd].
  destruct (Hrun (set_defaultPrevented false w)) as (_ & Ah & Am & Hsame & Hother);
    [by eapply is_Some_reachable_loaded..|].
  split; [done|]. split; [exact Ah|]. split; [exact Am|]. split; [exact Hsame|].
  split; [exact Hother | exact Hrun].
Qed.

Lemma hamburger_click_flips_witness :
  (dispatchEvent (Click 4 [0]) (loaded (fresh page))).2 = [] ∧
  active 4 (step (Click 4 [0]) (loaded (fresh page))) = negb (active 4 (loaded (fresh page))) ∧
  active 1 (step (Click 4 [0]) (loaded (fresh page))) = negb (active 1 (loaded (fresh page))).
Proof.
  destruct (hamburger_click_flips (fresh page) 4 1 (loaded (fresh page)) [0])
    as (Herr & Ah & Am & _);
    [reflexivity | reflexivity | reflexivity | lia | | | | |].
  - change (4 ∉ [2; 3]). rewrite !not_elem_of_cons.
    repeat split; try lia. apply not_elem_of_nil.
  - apply reachable_refl.
  - change (4 ∉ [0]). rewrite !not_elem_of_cons. split; [lia | apply not_elem_of_nil].
  - intros n Hn. apply list_elem_of_singleton in Hn as ->. change (0 ∉ [2; 3]).
    rewrite !not_elem_of_cons. repeat split; try lia. apply not_elem_of_nil.
  - split; [exact Herr|]. split; [exact Ah | exact Am].
Defined.

(** C3. On a loaded page with hamburger and menu, in any reachable state,
    whatever the two markers are, a click on any link whose path does not
    pass through the hamburger reports no error and leaves both markers
    absent: a reset, not a toggle.  The listener the click runs completes
    normally and leaves both markers absent from every world. *)
Theorem nav_link_click_closes
    (w0 : World) (h m : Node) (w : World) (target : Node) (ancestors : list Node) :
  listeners w0 = [] →
  select_first ".hamburger" (dom w0) = Some h →
  select_first ".nav-menu" (dom w0) = Some m →
  reachable (loaded w0) w →
  target ∈ select_all ".nav-link" (dom w0) →
  h ∉ target :: ancestors →
  (target, "click", nav_link_click (Some h) (Some m)) ∈ listeners w ∧
  (dispatchEvent (Click target ancestors) w).2 = [] ∧
  is_closed h m (step (Click target ancestors) w) ∧
  (∀ w', (call (nav_link_click (Some h) (Some m)) w').2 = Normal tt ∧
         is_closed h m (after (nav_link_click (Some h) (Some m)) w')).
Proof.
  intros Hl Hh Hm Hreach Hlink Hmiss. split; [|split; [|split]].
  - rewrite (reachable_listeners _ _ Hreach). unfold loaded.
    rewrite (on_DOMContentLoaded_found w0 h Hh), Hm, Hl.
    cbn [fst listeners set_listeners app]. apply elem_of_cons. right.
    by apply (list_elem_of_fmap_2
                (fun item => (item, "click", nav_link_click (Some h) (Some m)))).
  - by apply (dispatch_link_click w0 h m).
  - unfold step. by apply (dispatch_link_click w0 h m).
  - intros w'. split; [done|]. apply is_closed_after_nav_link_click.
Qed.

Lemma nav_link_click_closes_witness :
  (dispatchEvent (Click 2 [1; 0]) (step (Click 4 [0]) (loaded (fresh page)))).2 = [] ∧
  is_closed 4 1 (step (Click 2 [1; 0]) (step (Click 4 [0]) (loaded (fresh page)))).
Proof.
  destruct (nav_link_click_closes (fresh page) 4 1 (step (Click 4 [0]) (loaded (fresh page)))
              2 [1; 0]) as (_ & Herr & Hclosed & _);
    [reflexivity | reflexivity | reflexivity | | | |].
  - apply reachable_step, reachable_refl.
  - change (2 ∈ [2; 3]). apply elem_of_cons. by left.
  - change (4 ∉ [2; 1; 0]). rewrite !not_elem_of_cons.
    repeat split; try lia. apply not_elem_of_nil.
  - split; [exact Herr | exact Hclosed].
Defined.

(** X4. On a loaded page with hamburger and menu, in any reachable state, a
    click on a link whose path does not pass through the hamburger reports
    no error and leaves both markers absent. *)
Theorem link_click_closes_menu
    (w0 : World) (h m : Node) (w : World) (target : Node) (ancestors : list Node) :
  listeners w0 = [] →
  select_first ".hamburger" (dom w0) = Some h →
  select_first ".nav-menu" (dom w0) = Some m →
  reachable (loaded w0) w →
  target ∈ select_all ".nav-link" (dom w0) →
  h ∉ target :: ancestors →
  (dispatchEvent (Click target ancestors) w).2 = [] ∧
  is_closed h m (step (Click target ancestors) w).
Proof.
  intros Hl Hh Hm Hreach Hlink Hmiss. unfold step, dispatchEvent.
  assert (Hon : ∀ n, n ≠ h →
            listeners_on n "click" (set_defaultPrevented false w) =
              if decide (n ∈ select_all ".nav-link" (dom w0))
              then [nav_link_click (Some h) (Some m)] else []).
  { intros n Hn. apply closers_off_hamburger; try done.
    cbn [listeners set_defaultPrevented]. by apply reachable_listeners. }
  destruct (propagate_closers (target :: ancestors) h m (set_defaultPrevented false w))
    as [Herr Hclosed].
  { intros n Hn. rewrite Hon by (intros ->; by apply Hmiss). case_decide; auto. }
  split; [done|]. apply Hclosed. right. exists target.
  split; [apply elem_of_cons; by left|].
  rewrite Hon, decide_True; [done..|].
  intros ->. apply Hmiss, elem_of_cons. by left.
Qed.

Lemma link_click_closes_menu_witness :
  (dispatchEvent (Click 3 [1; 0]) (step (Click 4 [0]) (loaded (fresh page)))).2 = [] ∧
  is_closed 4 1 (step (Click 3 [1; 0]) (step (Click 4 [0]) (loaded (fresh page)))).
Proof.
  apply (link_click_closes_menu (fresh page) 4 1); try reflexivity.
  - apply reachable_step, reachable_refl.
  - change (3 ∈ [2; 3]). apply elem_of_cons. right. apply elem_of_cons. by left.
  - change (4 ∉ [3; 1; 0]). rewrite !not_elem_of_cons.
    repeat split; try lia. apply not_elem_of_nil.
Defined.

Section LoadedTwice.
Implicit Types (w : World) (h m n : Node).

Lemma listeners_on_loaded_twice w0 h n :
  listeners w0 = [] →
  select_first ".hamburger" (dom w0) = Some h →
  listeners_on n "click" (loaded (loaded w0)) =
    listeners_on n "click" (loaded w0) ++ listeners_on n "click" (loaded w0).
Proof.
  intros Hl Hh.
  rewrite (listeners_on_loaded_after (loaded w0) h n) by by rewrite dom_loaded.
  by rewrite (listeners_on_loaded w0 h n Hl Hh), dom_loaded.
Qed.

End LoadedTwice.

(** X5. When the script has run twice on a page with hamburger and menu
    whose hamburger is not itself a link, the hamburger carries two toggle
    listeners: in any reachable state a click on the hamburger, bubbling
    through no link, reports no error and leaves every token of every
    element as it was, so the menu never opens. *)
Theorem script_run_twice_toggle_cancels
    (w0 : World) (h m : Node) (w : World) (ancestors : list Node) :
  listeners w0 = [] →
  select_first ".hamburger" (dom w0) = Some h →
  select_first ".nav-menu" (dom w0) = Some m →
  h ∉ select_all ".nav-link" (dom w0) →
  reachable (loaded (loaded w0)) w →
  h ∉ ancestors →
  (∀ n, n ∈ ancestors → n ∉ select_all ".nav-link" (dom w0)) →
  listeners_on h "click" w =
    [hamburger_click (Some h) (Some m); hamburger_click (Some h) (Some m)] ∧
  (dispatchEvent (Click h ancestors) w).2 = [] ∧
  ∀ c k, has_class c k (step (Click h ancestors) w) = has_class c k w.
Proof.
  intros Hl Hh Hm Hnot Hreach Hmiss Hnolink.
  assert (Hon : ∀ w1 n, listeners w1 = listeners w →
            listeners_on n "click" w1 =
              listeners_on n "click" (loaded w0) ++ listeners_on n "click" (loaded w0)).
  { intros w1 n Hw1. rewrite <- (listeners_on_loaded_twice w0 h n Hl Hh).
    apply listeners_on_eq. rewrite Hw1. by apply reachable_listeners. }
  assert (Hat : ∀ w1, listeners w1 = listeners w →
            listeners_on h "click" w1 =
              [hamburger_click (Some h) (Some m); hamburger_click (Some h) (Some m)]).
  { intros w1 Hw1. rewrite (Hon w1 h Hw1), (listeners_on_loaded w0 h h Hl Hh), Hm.
    by rewrite !decide_True, !decide_False by done. }
  split; [by apply Hat|].
  unfold step, dispatchEvent. cbn [propagate]. rewrite Hat by done. cbn [invoke].
  rewrite !call_bound_hamburger_click.
  rewrite propagate_quiet.
  - cbn [fst snd app]. split; [done|]. intros c k. by rewrite has_class_after_two_clicks.
  - intros n Hn. rewrite !listeners_on_after, (Hon _ n) by done.
    rewrite (listeners_on_loaded w0 h n Hl Hh).
    rewrite decide_False by (intros ->; by apply Hmiss).
    by rewrite decide_False by by apply Hnolink.
Qed.

Lemma script_run_twice_toggle_cancels_witness :
  has_class "active" 4 (step (Click 4 [0]) (loaded (loaded (fresh page)))) =
    has_class "active" 4 (loaded (loaded (fresh page))).
Proof.
  destruct (script_run_twice_toggle_cancels (fresh page) 4 1 (loaded (loaded (fresh page)))
              [0])
    as (_ & _ & Hsame);
    [reflexivity | reflexivity | reflexivity | | | | | exact (Hsame "active" 4)].
  - change (4 ∉ [2; 3]). rewrite !not_elem_of_cons.
    repeat split; try lia. apply not_elem_of_nil.
  - apply reachable_refl.
  - change (4 ∉ [0]). rewrite !not_elem_of_cons. split; [lia | apply not_elem_of_nil].
  - intros n Hn. apply list_elem_of_singleton in Hn as ->. change (0 ∉ [2; 3]).
    rewrite !not_elem_of_cons. repeat split; try lia. apply not_elem_of_nil.
Defined.

(** X6. When the hamburger itself matches the link selector, it carries the
    toggle listener followed by a closing listener: in any reachable state a
    click on it reports no error and leaves both markers absent. *)
Theorem hamburger_marked_as_link_never_opens
    (w0 : World) (h m : Node) (w : World) (ancestors : list Node) :
  listeners w0 = [] →
  select_first ".hamburger" (dom w0) = Some h →
  select_first ".nav-menu" (dom w0) = Some m →
  h ∈ select_all ".nav-link" (dom w0) →
  reachable (loaded w0) w →
  h ∉ ancestors →
  (dispatchEvent (Click h ancestors) w).2 = [] ∧
  is_closed h m (step (Click h ancestors) w).
Proof.
  intros Hl Hh Hm Hlink Hreach Hmiss. unfold step, dispatchEvent. cbn [propagate].
  rewrite (listeners_on_reachable _ _ h "click" Hreach).
  rewrite (listeners_on_loaded w0 h h Hl Hh), Hm, !decide_True by done.
  cbn [app invoke].
  rewrite call_bound_hamburger_click, call_bound_nav_link_click.
  set (w2 := after (nav_link_click (Some h) (Some m)) _).
  destruct (propagate_closers ancestors h m w2) as [Herr Hclosed].
  { intros n Hn. unfold w2. rewrite !listeners_on_after.
    rewrite (closers_off_hamburger w0 h m _ n Hl Hh Hm).
    - case_decide; auto.
    - cbn [listeners set_defaultPrevented]. by apply reachable_listeners.
    - intros ->. by apply Hmiss. }
  destruct (propagate ancestors w2) as [w3 errs3]. cbn [fst snd app] in *.
  split; [done|]. apply Hclosed. left. apply is_closed_after_nav_link_click.
Qed.

Lemma hamburger_marked_as_link_never_opens_witness :
  is_closed 2 0 (step (Click 2 []) (loaded (fresh page_icon_link))).
Proof.
  apply (hamburger_marked_as_link_never_opens (fresh page_icon_link) 2 0); try reflexivity.
  - change (2 ∈ [1; 2]). apply elem_of_cons. right. apply elem_of_cons. by left.
  - apply reachable_refl.
  - apply not_elem_of_nil.
Defined.

(** X7. On a loaded page whose hamburger is not a link, a click that bubbles
    through the hamburger once and through no link (a click on the icon
    inside it, say) reports no error and negates both markers. *)
Theorem click_inside_hamburger_toggles
    (w0 : World) (h m : Node) (w : World) (target : Node) (ancestors pre post : list Node) :
  listeners w0 = [] →
  select_first ".hamburger" (dom w0) = Some h →
  select_first ".nav-menu" (dom w0) = Some m →
  h ≠ m →
  reachable (loaded w0) w →
  target :: ancestors = pre ++ h :: post →
  h ∉ pre ++ post →
  (∀ n, n ∈ pre ++ h :: post → n ∉ select_all ".nav-link" (dom w0)) →
  (dispatchEvent (Click target ancestors) w).2 = [] ∧
  active h (step (Click target ancestors) w) = negb (active h w) ∧
  active m (step (Click target ancestors) w) = negb (active m w).
Proof.
  intros Hl Hh Hm Hne Hreach Hpath Hmiss Hnolink.
  unfold step, dispatchEvent. rewrite Hpath. clear Hpath.
  apply not_elem_of_app in Hmiss as [Hpre Hpost].
  set (w' := set_defaultPrevented false w).
  assert (Hon : ∀ n, listeners_on n "click" w' =
            (if decide (h = n) then [hamburger_click (Some h) (Some m)] else []) ++
            (if decide (n ∈ select_all ".nav-link" (dom w0))
             then [nav_link_click (Some h) (Some m)] else [])).
  { intros n. unfold w'. rewrite (listeners_on_reachable _ _ n "click" Hreach).
    by rewrite (listeners_on_loaded w0 h n Hl Hh), Hm. }
  assert (Hquiet : ∀ n, n ≠ h → n ∈ pre ++ h :: post → listeners_on n "click" w' = []).
  { intros n Hn Hin. rewrite Hon, !decide_False; [done|by apply Hnolink|congruence]. }
  rewrite propagate_app.
  rewrite (propagate_quiet pre w').
  2:{ intros n Hn. apply Hquiet; [intros ->; by apply Hpre|].
      apply elem_of_app. by left. }
  cbn [fst snd propagate app].
  rewrite Hon, decide_True, decide_False by
    (try done; apply Hnolink, elem_of_app; right; apply elem_of_cons; by left).
  cbn [app invoke]. rewrite call_bound_hamburger_click.
  rewrite (propagate_quiet post).
  2:{ intros n Hn. rewrite listeners_on_after. apply Hquiet; [intros ->; by apply Hpost|].
      apply elem_of_app. right. apply elem_of_cons. by right. }
  cbn [fst snd app]. split; [done|].
  assert (Hsh : is_Some (dom w' !! h)) by by eapply is_Some_reachable_loaded.
  assert (Hsm : is_Some (dom w' !! m)) by by eapply is_Some_reachable_loaded.
  by rewrite active_after_hamburger_click_h, active_after_hamburger_click_m.
Qed.

Lemma click_inside_hamburger_toggles_witness :
  active 3 (step (Click 4 [3; 0]) (loaded (fresh page_nested))) =
    negb (active 3 (loaded (fresh page_nested))) ∧
  active 1 (step (Click 4 [3; 0]) (loaded (fresh page_nested))) =
    negb (active 1 (loaded (fresh page_nested))).
Proof.
  destruct (click_inside_hamburger_toggles (fresh page_nested) 3 1
              (loaded (fresh page_nested)) 4 [3; 0] [4] [0])
    as (_ & Hh & Hm);
    [reflexivity | reflexivity | reflexivity | lia | | reflexivity | | | ].
  - apply reachable_refl.
  - change (3 ∉ [4; 0]). rewrite !not_elem_of_cons.
    repeat split; try lia. apply not_elem_of_nil.
  - change (∀ n, n ∈ [4; 3; 0] → n ∉ [2; 5]). intros n Hn.
    repeat (apply elem_of_cons in Hn as [->|Hn]);
      [| | |by apply elem_of_nil in Hn];
      rewrite !not_elem_of_cons; repeat split; try lia; apply not_elem_of_nil.
  - split; [exact Hh | exact Hm].
Defined.

(** X8. On a loaded page whose hamburger and menu are two elements and whose
    hamburger is not itself a link, a click on a link that sits inside the
    hamburger, with the hamburger once on its path and no link above the
    hamburger, first closes the menu and then, bubbling through the
    hamburger, toggles it: no error is reported and the menu ends open,
    whatever its state was. *)
Theorem link_inside_hamburger_opens
    (w0 : World) (h m : Node) (w : World) (target : Node) (pre post : list Node) :
  listeners w0 = [] →
  select_first ".hamburger" (dom w0) = Some h →
  select_first ".nav-menu" (dom w0) = Some m →
  h ≠ m →
  h ∉ select_all ".nav-link" (dom w0) →
  reachable (loaded w0) w →
  target ∈ select_all ".nav-link" (dom w0) →
  h ∉ target :: pre ++ post →
  (∀ n, n ∈ post → n ∉ select_all ".nav-link" (dom w0)) →
  (dispatchEvent (Click target (pre ++ h :: post)) w).2 = [] ∧
  is_open h m (step (Click target (pre ++ h :: post)) w).
Proof.
  intros Hl Hh Hm Hne Hhlink Hreach Hlink Hmiss Hnolink.
  apply not_elem_of_cons in Hmiss as [Htarget Hmiss].
  apply not_elem_of_app in Hmiss as [Hpre Hpost].
  unfold step, dispatchEvent.
  set (w' := set_defaultPrevented false w).
  change (target :: pre ++ h :: post) with ((target :: pre) ++ h :: post).
  assert (Hw' : listeners w' = listeners (loaded w0)).
  { unfold w'. cbn [listeners set_defaultPrevented]. by apply reachable_listeners. }
  destruct (propagate_closers (target :: pre) h m w') as [Herr1 Hclosed1].
  { intros n Hn. rewrite (closers_off_hamburger w0 h m w' n Hl Hh Hm Hw').
    - case_decide; auto.
    - intros ->. apply elem_of_cons in Hn as [->|Hn]; [done|by apply Hpre]. }
  assert (Hclosed : is_closed h m (propagate (target :: pre) w').1).
  { apply Hclosed1. right. exists target. split; [apply elem_of_cons; by left|].
    rewrite (closers_off_hamburger w0 h m w' target Hl Hh Hm Hw') by congruence.
    by rewrite decide_True. }
  rewrite propagate_app, Herr1.
  set (w1 := (propagate (target :: pre) w').1) in *.
  assert (Hw1 : listeners w1 = listeners (loaded w0)).
  { unfold w1. by rewrite listeners_propagate. }
  cbn [propagate app].
  rewrite (listeners_on_eq h "click" w1 (loaded w0) Hw1).
  rewrite (listeners_on_loaded w0 h h Hl Hh), Hm, decide_True, decide_False by done.
  cbn [app invoke]. rewrite call_bound_hamburger_click.
  rewrite (propagate_quiet post).
  2:{ intros n Hn. rewrite listeners_on_after.
      rewrite (closers_off_hamburger w0 h m w1 n Hl Hh Hm Hw1) by (intros ->; by apply Hpost).
      by rewrite decide_False by by apply Hnolink. }
  cbn [fst snd app]. split; [done|].
  assert (Hsh : is_Some (dom w1 !! h)).
  { unfold w1. rewrite is_Some_propagate. by eapply is_Some_reachable_loaded. }
  assert (Hsm : is_Some (dom w1 !! m)).
  { unfold w1. rewrite is_Some_propagate. by eapply is_Some_reachable_loaded. }
  destruct Hclosed as [Ah Am]. unfold is_open.
  by rewrite active_after_hamburger_click_h, active_after_hamburger_click_m, Ah, Am.
Qed.

Lemma link_inside_hamburger_opens_witness :
  is_open 3 1 (step (Click 5 ([] ++ 3 :: [0])) (loaded (fresh page_nested))).
Proof.
  apply (link_inside_hamburger_opens (fresh page_nested) 3 1 (loaded (fresh page_nested))
           5 [] [0]); try reflexivity.
  - lia.
  - change (3 ∉ [2; 5]). rewrite !not_elem_of_cons.
    repeat split; try lia. apply not_elem_of_nil.
  - apply reachable_refl.
  - change (5 ∈ [2; 5]). apply elem_of_cons. right. apply elem_of_cons. by left.
  - change (3 ∉ [5; 0]). rewrite !not_elem_of_cons.
    repeat split; try lia. apply not_elem_of_nil.
  - intros n Hn. apply list_elem_of_singleton in Hn as ->. change (0 ∉ [2; 5]).
    rewrite !not_elem_of_cons. repeat split; try lia. apply not_elem_of_nil.
Defined.

(** ** Runs of listeners *)

Section Runs.
Implicit Types (w : World) (h m k : Node) (cbs : list Closure).

Lemma invoke_app (a b : list Closure) w :
  (invoke (a ++ b) w).1 = (invoke b (invoke a w).1).1.
Proof.
  revert w. induction a as [|cb a IH]; intros w; cbn [invoke app]; [done|].
  destruct (call cb w) as [w1 r]. specialize (IH w1).
  destruct (invoke (a ++ b) w1) as [w2 errs2]. destruct (invoke a w1) as [w3 errs3].
  cbn [fst] in *. by destruct (invoke b w3).
Qed.

Lemma is_Some_invoke cbs k w :
  is_Some (dom (invoke cbs w).1 !! k) ↔ is_Some (dom w !! k).
Proof.
  destruct (same_but_active_invoke cbs w) as (_ & _ & Hlen & _).
  by rewrite !lookup_lt_is_Some, Hlen.
Qed.

Lemma active_invoke_hamburger_clicks (N : nat) h m w :
  h ≠ m → is_Some (dom w !! h) → is_Some (dom w !! m) →
  active h (invoke (replicate N (hamburger_click (Some h) (Some m))) w).1 =
    xorb (Nat.odd N) (active h w) ∧
  active m (invoke (replicate N (hamburger_click (Some h) (Some m))) w).1 =
    xorb (Nat.odd N) (active m w).
Proof.
  intros Hne. revert w. induction N as [|N IH]; intros w Hh Hm; cbn [replicate invoke].
  - cbn [fst]. by destruct (active h w), (active m w).
  - rewrite call_bound_hamburger_click.
    set (w1 := after (hamburger_click (Some h) (Some m)) w).
    destruct (IH w1) as [IHh IHm]; [by apply is_Some_after..|].
    destruct (invoke _ w1) as [w2 errs2]. cbn [fst] in *.
    rewrite IHh, IHm. unfold w1.
    rewrite active_after_hamburger_click_h, active_after_hamburger_click_m by done.
    rewrite Nat.odd_succ, <- Nat.negb_odd.
    by destruct (Nat.odd N), (active h w), (active m w).
Qed.

(** Each element keeps its attributes and its tokens other than [active]
    along every run of clicks. *)
Lemma rest_of_reachable w0 w k :
  reachable w0 w → rest_of <$> dom w !! k = rest_of <$> dom w0 !! k.
Proof.
  induction 1 as [|w ev _ IH]; [done|]. rewrite <- IH.
  destruct ev as [target ancestors]. unfold step, dispatchEvent.
  by destruct (same_but_active_propagate (target :: ancestors)
                 (set_defaultPrevented false w)) as (_ & _ & _ & ->).
Qed.

Lemma matches_rest_of (sel : string) (e : Element) :
  sel ≠ ".active" → matches sel (rest_of e) = matches sel e.
Proof.
  intros Hsel. unfold matches. destruct sel as [|a c]; [done|].
  destruct (Ascii.ascii_dec a ".") as [->|Ha].
  - cbn [rest_of set_classList classList]. rewrite contains_remove.
    rewrite decide_False; [done|]. intros ->. by apply Hsel.
  - by destruct a as [[] [] [] [] [] [] [] []].
Qed.

Lemma select_from_rest_of (sel : string) (d : list Element) :
  sel ≠ ".active" → ∀ i, select_from sel i (rest_of <$> d) = select_from sel i d.
Proof.
  intros Hsel. induction d as [|e d IH]; intros i; [done|].
  cbn [fmap list_fmap select_from]. by rewrite matches_rest_of, !IH.
Qed.

End Runs.

(** X9. After any run of listeners, whatever they captured, one run of the
    link listener followed by [N] runs of the hamburger listener leaves both
    markers present when [N] is odd and absent when [N] is even: the state
    of the menu depends only on the toggles since the last link click. *)
Theorem markers_count_toggles_since_last_link_click
    (prefix : list Closure) (N : nat) (h m : Node) (w : World) :
  h ≠ m →
  is_Some (dom w !! h) →
  is_Some (dom w !! m) →
  active h (invoke (prefix ++ nav_link_click (Some h) (Some m) ::
                    replicate N (hamburger_click (Some h) (Some m))) w).1 = Nat.odd N ∧
  active m (invoke (prefix ++ nav_link_click (Some h) (Some m) ::
                    replicate N (hamburger_click (Some h) (Some m))) w).1 = Nat.odd N.
Proof.
  intros Hne Hh Hm. rewrite invoke_app.
  set (w1 := (invoke prefix w).1).
  assert (Hh1 : is_Some (dom w1 !! h)) by by apply is_Some_invoke.
  assert (Hm1 : is_Some (dom w1 !! m)) by by apply is_Some_invoke.
  change (nav_link_click (Some h) (Some m) :: ?l) with ([nav_link_click (Some h) (Some m)] ++ l).
  rewrite invoke_app. cbn [invoke]. rewrite call_bound_nav_link_click. cbn [fst].
  set (w2 := after (nav_link_click (Some h) (Some m)) w1).
  destruct (active_invoke_hamburger_clicks N h m w2 Hne) as [Ah Am];
    [by apply is_Some_after..|].
  rewrite Ah, Am. unfold w2.
  rewrite active_after_nav_link_click_h, active_after_nav_link_click_m.
  by destruct (Nat.odd N).
Qed.

Lemma markers_count_toggles_since_last_link_click_witness :
  active 4 (invoke ([hamburger_click (Some 4) None; hamburger_click (Some 4) (Some 1)] ++
                    nav_link_click (Some 4) (Some 1) ::
                    replicate 3 (hamburger_click (Some 4) (Some 1))) (fresh page)).1 = true.
Proof.
  destruct (markers_count_toggles_since_last_link_click
              [hamburger_click (Some 4) None; hamburger_click (Some 4) (Some 1)]
              3 4 1 (fresh page)) as [Hh _].
  - lia.
  - by exists (el ["hamburger"]).
  - by exists (el ["nav-menu"]).
  - exact Hh.
Defined.

(** X10. No run of clicks changes what a class selector other than
    [.active] matches: the elements the script looked up once are the ones a
    new lookup would find in any later state. *)
Theorem lookups_are_stable (sel : string) (w0 w : World) :
  sel ≠ ".active" →
  reachable w0 w →
  select_all sel (dom w) = select_all sel (dom w0) ∧
  select_first sel (dom w) = select_first sel (dom w0).
Proof.
  intros Hsel Hreach.
  assert (Hall : select_all sel (dom w) = select_all sel (dom w0)).
  { unfold select_all.
    rewrite <- (select_from_rest_of sel (dom w) Hsel), <- (select_from_rest_of sel (dom w0) Hsel).
    f_equal. apply list_eq. intros k. rewrite !list_lookup_fmap.
    by apply rest_of_reachable. }
  split; [done|]. unfold select_first. by rewrite Hall.
Qed.

Lemma lookups_are_stable_witness :
  select_first ".hamburger" (dom (step (Click 4 [0]) (loaded (fresh page)))) =
    select_first ".hamburger" (dom (loaded (fresh page))).
Proof.
  destruct (lookups_are_stable ".hamburger" (loaded (fresh page))
              (step (Click 4 [0]) (loaded (fresh page)))) as [_ Hfirst].
  - discriminate.
  - apply reachable_step, reachable_refl.
  - exact Hfirst.
Defined.

(** X11. With the hamburger present and the menu lookup [null], every link
    carries a closing listener; whenever it runs it removes the hamburger's
    marker, touches no other element, and then throws. *)
Theorem missing_menu_link_click_closes_icon_then_throws (w0 : World) (h : Node) :
  select_first ".hamburger" (dom w0) = Some h →
  select_first ".nav-menu" (dom w0) = None →
  (∀ item, item ∈ select_all ".nav-link" (dom w0) →
           (item, "click", nav_link_click (Some h) None) ∈ listeners (loaded w0)) ∧
  (∀ w, (call (nav_link_click (Some h) None) w).2 = Throw TypeError ∧
        active h (after (nav_link_click (Some h) None) w) = false ∧
        ∀ k, k ≠ h → dom (after (nav_link_click (Some h) None) w) !! k = dom w !! k).
Proof.
  intros Hh Hm. split.
  - intros item Hitem. unfold loaded. rewrite (on_DOMContentLoaded_found w0 h Hh), Hm.
    cbn [fst listeners set_listeners]. apply elem_of_app. right.
    apply elem_of_cons. right.
    apply (list_elem_of_fmap_2 (fun item => (item, "click", nav_link_click (Some h) None))).
    done.
  - intros w. split; [done|]. split.
    + change (after (nav_link_click (Some h) None) w) with
        (classList_remove (Some h) "active" w).1.
      unfold active. rewrite has_class_remove. by rewrite decide_True.
    + intros k Hk. apply lookup_after_other; cbn; congruence.
Qed.

Lemma missing_menu_link_click_closes_icon_then_throws_witness :
  (1, "click", nav_link_click (Some 2) None) ∈ listeners (loaded (fresh page_no_menu)).
Proof.
  destruct (missing_menu_link_click_closes_icon_then_throws (fresh page_no_menu) 2)
    as [Hreg _]; [reflexivity | reflexivity |].
  apply Hreg. change (1 ∈ [1]). apply elem_of_cons. by left.
Defined.

(** X12. When one element carries both the hamburger's and the menu's class
    name and is not itself a link, the two lookups yield that element and
    its listener toggles the marker twice: in any reachable state a click on
    it, bubbling through no link, reports no error and changes no token. *)
Theorem shared_element_click_changes_nothing
    (w0 : World) (h : Node) (w : World) (ancestors : list Node) :
  listeners w0 = [] →
  select_first ".hamburger" (dom w0) = Some h →
  select_first ".nav-menu" (dom w0) = Some h →
  h ∉ select_all ".nav-link" (dom w0) →
  reachable (loaded w0) w →
  h ∉ ancestors →
  (∀ n, n ∈ ancestors → n ∉ select_all ".nav-link" (dom w0)) →
  (dispatchEvent (Click h ancestors) w).2 = [] ∧
  ∀ c k, has_class c k (step (Click h ancestors) w) = has_class c k w.
Proof.
  intros Hl Hh Hm Hnot Hreach Hmiss Hnolink. unfold step.
  rewrite (dispatch_hamburger_click w0 h h w ancestors) by done. cbn [fst snd].
  split; [done|]. intros c k. by rewrite has_class_after_click_same_element.
Qed.

Lemma shared_element_click_changes_nothing_witness :
  has_class "active" 1
    (step (Click 1 [0]) (loaded (fresh [el ["navbar"]; el ["hamburger"; "nav-menu"]]))) =
  has_class "active" 1 (loaded (fresh [el ["navbar"]; el ["hamburger"; "nav-menu"]])).
Proof.
  destruct (shared_element_click_changes_nothing
              (fresh [el ["navbar"]; el ["hamburger"; "nav-menu"]]) 1
              (loaded (fresh [el ["navbar"]; el ["hamburger"; "nav-menu"]])) [0])
    as [_ Hsame];
    [reflexivity | reflexivity | reflexivity | | | | | exact (Hsame "active" 1)].
  - apply not_elem_of_nil.
  - apply reachable_refl.
  - change (1 ∉ [0]). rewrite !not_elem_of_cons. split; [lia | apply not_elem_of_nil].
  - intros n _. apply not_elem_of_nil.
Defined.

(** ** Class lists stay sets *)

Section TokenSets.
Implicit Types (w : World) (r : Ref) (cl : list string) (d : list Element).

Lemma NoDup_remove (tok : string) cl : NoDup cl → NoDup (DOMTokenList.remove tok cl).
Proof. apply NoDup_filter. Qed.

Lemma NoDup_toggle (tok : string) cl : NoDup cl → NoDup (DOMTokenList.toggle tok cl).1.
Proof.
  intros Hnd. unfold DOMTokenList.toggle.
  destruct (DOMTokenList.contains tok cl) eqn:Htok; cbn [fst].
  - by apply NoDup_remove.
  - apply NoDup_app. split; [done|]. split; [|apply NoDup_singleton].
    intros c Hc ->%list_elem_of_singleton. by apply contains_false in Htok.
Qed.

Lemma token_sets_toggle r (tok : string) w :
  Forall (fun e => NoDup (classList e)) (dom w) →
  Forall (fun e => NoDup (classList e)) (dom (classList_toggle r tok w).1).
Proof.
  intros Hw. destruct r as [n|]; [|done]. cbn [classList_toggle fst dom set_dom].
  apply Forall_alter; [done|]. intros e _ He. by apply NoDup_toggle.
Qed.

Lemma token_sets_remove r (tok : string) w :
  Forall (fun e => NoDup (classList e)) (dom w) →
  Forall (fun e => NoDup (classList e)) (dom (classList_remove r tok w).1).
Proof.
  intros Hw. destruct r as [n|]; [|done]. cbn [classList_remove fst dom set_dom].
  apply Forall_alter; [done|]. intros e _ He. by apply NoDup_remove.
Qed.

Lemma token_sets_after (cb : Closure) w :
  Forall (fun e => NoDup (classList e)) (dom w) →
  Forall (fun e => NoDup (classList e)) (dom (after cb w)).
Proof.
  intros Hw. unfold after. destruct cb as [h m|h m]; simpl; unfold mbind, M_bind, bind.
  - pose proof (token_sets_toggle h "active" w Hw) as H1.
    destruct (classList_toggle h "active" w) as [w1 [b1|e1]]; cbn [fst] in *; [|done].
    pose proof (token_sets_toggle m "active" w1 H1) as H2.
    by destruct (classList_toggle m "active" w1) as [w2 [b2|e2]].
  - pose proof (token_sets_remove h "active" w Hw) as H1.
    destruct (classList_remove h "active" w) as [w1 [b1|e1]]; cbn [fst] in *; [|done].
    by apply token_sets_remove.
Qed.

Lemma token_sets_invoke (cbs : list Closure) w :
  Forall (fun e => NoDup (classList e)) (dom w) →
  Forall (fun e => NoDup (classList e)) (dom (invoke cbs w).1).
Proof.
  revert w. induction cbs as [|cb cbs IH]; intros w Hw; cbn [invoke]; [done|].
  pose proof (token_sets_after cb w Hw) as H1. unfold after in H1.
  destruct (call cb w) as [w1 r]. specialize (IH w1 H1).
  by destruct (invoke cbs w1) as [w2 errs].
Qed.

Lemma token_sets_propagate (path : list Node) w :
  Forall (fun e => NoDup (classList e)) (dom w) →
  Forall (fun e => NoDup (classList e)) (dom (propagate path w).1).
Proof.
  revert w. induction path as [|n path IH]; intros w Hw; cbn [propagate]; [done|].
  pose proof (token_sets_invoke (listeners_on n "click" w) w Hw) as H1.
  destruct (invoke (listeners_on n "click" w) w) as [w1 errs1]. specialize (IH w1 H1).
  by destruct (propagate path w1) as [w2 errs2].
Qed.

End TokenSets.

(** X13. When no class list of the document holds a token twice, none does
    in any state reached by clicks, whatever listeners are registered; in
    particular an element never carries the marker twice. *)
Theorem class_lists_stay_sets (w0 w : World) :
  Forall (fun e => NoDup (classList e)) (dom w0) →
  reachable w0 w →
  Forall (fun e => NoDup (classList e)) (dom w).
Proof.
  intros Hw0. induction 1 as [|w ev _ IH]; [done|].
  destruct ev as [target ancestors]. unfold step, dispatchEvent.
  by apply token_sets_propagate.
Qed.

Lemma class_lists_stay_sets_witness :
  Forall (fun e => NoDup (classList e))
    (dom (step (Click 2 []) (step (Click 1 [0]) (loaded (fresh page_icon_open))))).
Proof.
  apply (class_lists_stay_sets (loaded (fresh page_icon_open))).
  - change (Forall (fun e => NoDup (classList e)) page_icon_open).
    apply (bool_decide_unpack _). reflexivity.
  - do 2 apply reachable_step. apply reachable_refl.
Defined.

(** A click on the link removes the marker; a click on the hamburger then
    appends it to both elements. *)
Example class_lists_stay_sets_run :
  dom (step (Click 1 [0]) (loaded (fresh page_icon_open))) =
    [ el ["nav-menu"]; el ["nav-link"]; el ["hamburger"] ] ∧
  dom (step (Click 2 []) (step (Click 1 [0]) (loaded (fresh page_icon_open)))) =
    [ el ["nav-menu"; "active"]; el ["nav-link"]; el ["hamburger"; "active"] ].
Proof. split; reflexivity. Qed.
